(** * Cross-chain staking: orchestration, retry executor and staking contract

    A shallow embedding of
    - [cross-chain-staking.ts]: [executeCrossChainTransfer], [tokenTransfer],
      [executeWithRetry], [executeStaking], [executeUnstake], [getStakeInfo]
      and the script run as entry point;
    - [native-transfer.ts]: [tokenTransfer];
    - [server.ts]: the handlers of [POST /api/cross-chain-stake],
      [POST /api/unstake], [GET /api/stake-info] and [GET /api/logs],
      [sendLogToAll] and the redirect of [console.log];
    - [CrossChainStaking.sol] and [LoanToken.sol]: [stake], [unstake],
      [stakeForUser], [updateLoanRatio], [emergencyWithdraw], [getUserStake],
      [mint], [burn], [addMinter], [removeMinter].

    The TypeScript code is a sequence of awaited remote calls.  It is
    modelled in a state-and-exception monad over an arbitrary environment:
    every awaited SDK or contract call is answered by the environment and
    recorded, with its outcome, in a chronological trace. *)

From Stdlib Require Import ZArith QArith Qminmax List String Ascii Bool Lia.
From Stdlib Require Import DecimalString Lqa.
Import ListNotations.

Local Open Scope string_scope.
Local Open Scope Z_scope.

(** ** JavaScript values that are thrown and caught *)

(** What a [catch] clause can receive: [undefined], a thrown string, an
    [Error] object with its [name] and [message], or an [Error] object
    that, beside these, holds something [JSON.stringify] refuses: a bigint,
    as ethers and the SDK attach to their errors, or a cycle.  [refusal] is
    the message of the [TypeError] that [JSON.stringify] throws for it. *)
Inductive thrown : Type :=
| Undefined
| StrVal (s : string)
| ErrorObj (name message : string)
| ErrorWith (name message refusal : string).

(** [Error.prototype.toString] *)
Definition error_text (name message : string) : string :=
  if String.eqb name "" then message
  else if String.eqb message "" then name
  else name ++ ": " ++ message.

(** [String(error)], also what a template literal prints. *)
Definition String_of (e : thrown) : string :=
  match e with
  | Undefined => "undefined"
  | StrVal s => s
  | ErrorObj name message => error_text name message
  | ErrorWith name message _ => error_text name message
  end.

(** [error instanceof Error ? error.message : String(error)] *)
Definition message_or_string (e : thrown) : string :=
  match e with
  | ErrorObj _ message => message
  | ErrorWith _ message _ => message
  | _ => String_of e
  end.

(** [error.message || fallback], as the HTTP handlers build their replies. *)
Definition message_or (e : thrown) (fallback : string) : string :=
  match e with
  | ErrorObj _ message => if String.eqb message "" then fallback else message
  | ErrorWith _ message _ => if String.eqb message "" then fallback else message
  | _ => fallback
  end.

(** [hay.includes(needle)] *)
Fixpoint includes (needle hay : string) : bool :=
  prefix needle hay ||
  match hay with
  | EmptyString => false
  | String _ rest => includes needle rest
  end.

(** ** [parseFloat]

    ECMAScript's [parseFloat]: skip leading white space, take the longest
    prefix that is a [StrDecimalLiteral], [NaN] when there is none.  A finite
    result is kept as the exact decimal value read; rounding to a double
    matters to the caller only near zero, see [le_zero].  A text is kept as
    its UTF-8 bytes, the encoding the request body arrives in. *)

Inductive number : Type :=
| NaN
| Infinity (negative : bool)
| Finite (q : Q).

(** [StrWhiteSpaceChar] is [WhiteSpace] or [LineTerminator].  In one byte:
    TAB, LF, VT, FF, CR and SP. *)
Definition is_white (c : ascii) : bool :=
  match nat_of_ascii c with
  | 9%nat | 10%nat | 11%nat | 12%nat | 13%nat | 32%nat => true
  | _ => false
  end.

(** In two bytes: U+00A0, the no-break space. *)
Definition is_white2 (a b : ascii) : bool :=
  ((nat_of_ascii a =? 194) && (nat_of_ascii b =? 160))%nat.

(** In three bytes: U+1680; U+2000 to U+200A; the line and paragraph
    separators U+2028 and U+2029; U+202F; U+205F; U+3000; and U+FEFF, the
    byte order mark. *)
Definition is_white3 (a b c : ascii) : bool :=
  let x := nat_of_ascii a in
  let y := nat_of_ascii b in
  let z := nat_of_ascii c in
  (((x =? 225) && (y =? 154) && (z =? 128))
   || ((x =? 226) && (y =? 128) && (128 <=? z) && (z <=? 138))
   || ((x =? 226) && (y =? 128) && ((z =? 168) || (z =? 169) || (z =? 175)))
   || ((x =? 226) && (y =? 129) && (z =? 159))
   || ((x =? 227) && (y =? 128) && (z =? 128))
   || ((x =? 239) && (y =? 187) && (z =? 191)))%nat.

Definition is_digit (c : ascii) : bool :=
  ((48 <=? nat_of_ascii c) && (nat_of_ascii c <=? 57))%nat.

Definition digit_value (c : ascii) : Z := Z.of_nat (nat_of_ascii c) - 48.

Fixpoint skip_white (s : string) : string :=
  match s with
  | String a rest1 =>
      if is_white a then skip_white rest1
      else
        match rest1 with
        | String b rest2 =>
            if is_white2 a b then skip_white rest2
            else
              match rest2 with
              | String c rest3 =>
                  if is_white3 a b c then skip_white rest3 else s
              | EmptyString => s
              end
        | EmptyString => s
        end
  | EmptyString => s
  end.

(** Reads [DecimalDigits], continuing the number [acc]; returns the number,
    how many digits were read and the rest of the string. *)
Fixpoint read_digits (s : string) (acc : Z) (n : Z) : Z * Z * string :=
  match s with
  | String c rest =>
      if is_digit c then read_digits rest (acc * 10 + digit_value c) (n + 1)
      else (acc, n, s)
  | EmptyString => (acc, n, s)
  end.

(** [ExponentPart], 0 when the rest does not start with a complete one. *)
Definition read_exponent (s : string) : Z :=
  match s with
  | String c rest =>
      if Ascii.eqb c "e" || Ascii.eqb c "E" then
        match rest with
        | String "+" rest' =>
            let '(e, n, _) := read_digits rest' 0 0 in if n =? 0 then 0 else e
        | String "-" rest' =>
            let '(e, n, _) := read_digits rest' 0 0 in if n =? 0 then 0 else - e
        | _ =>
            let '(e, n, _) := read_digits rest 0 0 in if n =? 0 then 0 else e
        end
      else 0
  | EmptyString => 0
  end.

(** [m * 10 ^ e] *)
Definition scale10 (m e : Z) : Q :=
  if 0 <=? e then Qmake (m * 10 ^ e) 1 else Qmake m (Z.to_pos (10 ^ (- e))).

(** [StrUnsignedDecimalLiteral] *)
Definition read_unsigned (s : string) : option Q :=
  let '(ip, ni, r1) := read_digits s 0 0 in
  match r1 with
  | String "." r2 =>
      let '(m, nf, r3) := read_digits r2 ip 0 in
      if (ni =? 0) && (nf =? 0) then None
      else Some (scale10 m (read_exponent r3 - nf))
  | _ =>
      if ni =? 0 then None else Some (scale10 ip (read_exponent r1))
  end.

Definition read_signed (negative : bool) (s : string) : number :=
  if prefix "Infinity" s then Infinity negative
  else match read_unsigned s with
       | Some q => Finite (if negative then Qopp q else q)
       | None => NaN
       end.

Definition parseFloat (s : string) : number :=
  match skip_white s with
  | String "+" rest => read_signed false rest
  | String "-" rest => read_signed true rest
  | t => read_signed false t
  end.

(** [x <= 0] on the double that [x] rounds to.  [NaN] compares false with
    everything; a positive decimal rounds to [+0] exactly when it is at most
    [2^-1075], half the least subnormal double. *)
Definition le_zero (x : number) : bool :=
  match x with
  | NaN => false
  | Infinity negative => negative
  | Finite q => Qle_bool q (Qmake 1 (2 ^ 1075))
  end.

(** [!x] for a value that is a string or [undefined]. *)
Definition falsy (x : option string) : bool :=
  match x with
  | None => true
  | Some s => String.eqb s ""
  end.

(** ** Domain data *)

Inductive Chain : Type := Solana | Sepolia.

Record SignerStuff : Type := {
  ss_chain : Chain;
  ss_signer : string;
  ss_address : string   (* [x.address.address.address.toString()] *)
}.

Record TokenId : Type := { tok_chain : Chain; tok_address : string }.

(** [Wormhole.tokenId(chain, "native")] *)
Definition tokenId (c : Chain) (a : string) : TokenId :=
  {| tok_chain := c; tok_address := a |}.

(** The transfer object returned by [wh.tokenTransfer]; [xfer.transfer.automatic]
    is the flag the transfer was created with. *)
Record Xfer : Type := { transfer_automatic : bool }.

(** [quote.destinationToken.amount], a bigint. *)
Record Quote : Type := { destinationToken_amount : Z }.

(** A submitted ledger transaction, with its [hash]; [wait()] is a call. *)
Record Tx : Type := { tx_hash : string }.

(** What [executeCrossChainTransfer] returns. *)
Record TransferResult : Type := {
  sourceAddress : string;
  destinationAddress : string;
  amount : string;
  wormholeHash : option string   (* [srcTxids[0]], [None] for [undefined] *)
}.

(** What [executeStaking] and [getStakeInfo] return. *)
Record StakePosition : Type := {
  stakedAmount : string;
  loanedAmount : string
}.

(** What [executeUnstake] returns. *)
Record UnstakeResult : Type := {
  withdrawnAmount : string;
  newStakedAmount : string;
  newLoanedAmount : string
}.

(** The JSON replies of [POST /api/cross-chain-stake]. *)
Inductive Response : Type :=
| Status400 (message : string)
| Status200 (message : string) (transfer : TransferResult)
            (staking : option StakePosition)
| Status500 (message : string).

Definition STAKING_CONTRACT_ADDRESS := "0xfb06c3cd43d8b15c580a196e12ba80d42ffc02cd".
Definition LOAN_TOKEN_ADDRESS := "0x8c25f65249f568033697a5d06f907f4dafafdeb5".
Definition WRAPPED_SOL_ADDRESS := "0x824CB8fC742F8D3300d29f16cA8beE94471169f5".

(** ** Remote calls *)

(** Every awaited call of the orchestrator: into the Wormhole SDK, the
    helpers module ([getSigner], [getTokenDecimals]), ethers or a contract.
    What each answers is up to the environment. *)
Inductive call : Type :=
(* bridge *)
| CWormhole                                   (* wormhole("Testnet", [...]) *)
| CGetSigner (c : Chain)                      (* getSigner(chain) *)
| CGetTokenDecimals (t : TokenId) (c : Chain) (* getTokenDecimals(wh, token, chain) *)
| CAmountUnits (amt : string) (decimals : Z)  (* amount.units(amount.parse(amt, decimals)) *)
| CTokenTransfer (t : TokenId) (amount : Z) (src dst : string) (automatic : bool)
| CQuoteTransfer (src dst : Chain)            (* TokenTransfer.quoteTransfer *)
| CInitiateTransfer (signer : string)         (* xfer.initiateTransfer *)
| CFetchAttestation (timeout : Z)             (* xfer.fetchAttestation *)
| CCompleteTransfer (signer : string)         (* xfer.completeTransfer *)
(* ledger *)
| CMinters (token who : string)
| CAddMinter (token who : string)
| CBalanceOf (token account : string)
| CDecimals (token : string)
| CApprove (token spender : string) (amount : Z)
| CStake (contract : string) (amount : Z)
| CUnstake (contract : string) (amount : Z)
| CGetUserStake (contract user : string)
| CWait (tx : Tx).                            (* tx.wait() *)

(** An attestation id as [xfer.fetchAttestation] gives it: a Wormhole
    message id, whose [sequence] is a bigint, or a Circle id, a hash. *)
Inductive AttestationId : Type :=
| MessageId (chain emitter : string) (sequence : Z)
| CircleId (hash : string).

(** The type of what each call resolves to. *)
Definition resp (c : call) : Type :=
  match c with
  | CWormhole => unit
  | CGetSigner _ => SignerStuff
  | CGetTokenDecimals _ _ => Z
  | CAmountUnits _ _ => Z
  | CTokenTransfer _ _ _ _ _ => Xfer
  | CQuoteTransfer _ _ => Quote
  | CInitiateTransfer _ => list string
  | CFetchAttestation _ => list AttestationId
  | CCompleteTransfer _ => list string
  | CMinters _ _ => bool
  | CAddMinter _ _ => Tx
  | CBalanceOf _ _ => Z
  | CDecimals _ => Z
  | CApprove _ _ _ => Tx
  | CStake _ _ => Tx
  | CUnstake _ _ => Tx
  | CGetUserStake _ _ => (Z * Z)%type
  | CWait _ => unit
  end.

(** One entry of the trace: a call and how it settled (rejected with a
    thrown value, or resolved). *)
Inductive event : Type :=
| Ev (c : call) (r : thrown + resp c).

(** ** Console output *)

Inductive piece : Type :=
| PStr (s : string)
| PNat (n : nat)
| PNum (q : Q)
| PThrown (e : thrown)
| PList (l : list string)
| PIds (ids : list AttestationId)
| PElem (o : option string).   (* [`${xs[i]}`]: an element, or [undefined] *)

(** *** What [JSON.stringify] refuses

    The [console.log] that [server.ts] installs maps every argument with
    [typeof arg === 'object' ? JSON.stringify(arg) : arg], outside any
    [try]; [JSON.stringify] throws a [TypeError] on a bigint. *)

Definition bigint_refusal : string := "Do not know how to serialize a BigInt".

Definition is_message_id (i : AttestationId) : bool :=
  match i with MessageId _ _ _ => true | CircleId _ => false end.

Definition holds_bigint (ids : list AttestationId) : bool :=
  existsb is_message_id ids.

(** The [TypeError] that [JSON.stringify(arg)] throws for an argument, if
    it throws. *)
Definition refusal (p : piece) : option thrown :=
  match p with
  | PThrown e =>
      match e with
      | ErrorWith _ _ why => Some (ErrorObj "TypeError" why)
      | _ => None
      end
  | PIds ids =>
      if holds_bigint ids then Some (ErrorObj "TypeError" bigint_refusal)
      else None
  | _ => None
  end.

(** The arguments are mapped from left to right. *)
Fixpoint first_refusal (l : list piece) : option thrown :=
  match l with
  | [] => None
  | p :: rest =>
      match refusal p with
      | Some e => Some e
      | None => first_refusal rest
      end
  end.

(** The native [console.log] stringifies nothing. *)
Definition under (redirect : bool) (o : option thrown) : option thrown :=
  match o with
  | Some e => if redirect then Some e else None
  | None => None
  end.

Inductive stream : Type := Out | Err.   (* console.log / console.error *)

Definition logline : Type := (stream * list piece)%type.

(** ** The monad of the orchestrator *)

(** The environment the orchestrator runs in: a state of the outside world
    answering every call, and the pure services of the libraries. *)
Class Environment : Type := {
  W : Type;
  respond : W -> forall c : call, (thrown + resp c) * W;
  (** [ethers.formatUnits(value, decimals)] *)
  formatUnits : Z -> Z -> string;
  (** [process.env.ETH_PRIVATE_KEY] and the address of the wallet built
      from it. *)
  ETH_PRIVATE_KEY : option string;
  wallet_address : string;
  (** The message of the [TypeError] that [new ethers.Wallet(privateKey,
      provider)] throws when the key is set but is not a private key;
      [None] when the wallet is built. *)
  invalid_key : option string;
  (** Whether [console.log] is the redirect that [server.ts] installs, as
      in the server process, or the native one, as in a script. *)
  redirected : bool
}.

Section Orchestrator.

Context {env : Environment}.

Record St : Type := {
  world : W;
  trace : list event;     (* remote calls, oldest first *)
  logs : list logline;    (* console output, oldest first *)
  sleeps : list Q         (* setTimeout delays awaited, in ms, oldest first *)
}.

Definition M (A : Type) : Type := St -> (thrown + A) * St.

Definition ret {A} (a : A) : M A := fun s => (inr a, s).

Definition throw {A} (e : thrown) : M A := fun s => (inl e, s).

Definition bind {A B} (m : M A) (k : A -> M B) : M B :=
  fun s => match m s with
           | (inr a, s') => k a s'
           | (inl e, s') => (inl e, s')
           end.

(** [try { m } catch (e) { h e }] *)
Definition try_catch {A} (m : M A) (h : thrown -> M A) : M A :=
  fun s => match m s with
           | (inr a, s') => (inr a, s')
           | (inl e, s') => h e s'
           end.

Definition invoke (c : call) : M (resp c) :=
  fun s => let (r, w') := respond (world s) c in
           (r, {| world := w'; trace := trace s ++ [Ev c r];
                  logs := logs s; sleeps := sleeps s |}).

(** [console.log(...l)]: under the redirect an argument that
    [JSON.stringify] refuses makes the call throw, before anything is
    printed. *)
Definition console_log (l : list piece) : M unit :=
  fun s => match under redirected (first_refusal l) with
           | Some e => (inl e, s)
           | None =>
               (inr tt, {| world := world s; trace := trace s;
                           logs := logs s ++ [(Out, l)]; sleeps := sleeps s |})
           end.

(** What [console.log(e)] throws instead of printing [e], if it throws:
    nothing with the native console, and under the redirect the
    [TypeError] of [JSON.stringify] for an error that holds a bigint or a
    cycle. *)
Definition log_refusal (e : thrown) : option thrown :=
  under redirected (refusal (PThrown e)).

(** [console.error], which nothing redirects. *)
Definition console_error (l : list piece) : M unit :=
  fun s => (inr tt, {| world := world s; trace := trace s;
                       logs := logs s ++ [(Err, l)]; sleeps := sleeps s |}).

(** [await new Promise(resolve => setTimeout(resolve, ms))] *)
Definition sleep (ms : Q) : M unit :=
  fun s => (inr tt, {| world := world s; trace := trace s;
                       logs := logs s; sleeps := sleeps s ++ [ms] |}).

Notation "x <- m ;; k" := (bind m (fun x => k))
  (at level 100, m at next level, right associativity).
Notation "m ;;; k" := (bind m (fun _ => k))
  (at level 100, right associativity).

(** ** [executeWithRetry] *)

(** [Math.min(delay * 1.5, 15000)].  The code computes on doubles; a delay
    is kept here as the exact rational, which is what the code computes as
    long as the delay and its product by 1.5 are doubles, as they are from
    the 3000 that every call site starts with (3000, 4500, 6750, 10125,
    then the cap). *)
Definition next_delay (delay : Q) : Q := Qmin (delay * (3 # 2)) (15000 # 1).

(** The [for] loop from iteration [i] on.  [fuel] bounds the iterations
    left; [executeWithRetry] starts it with [maxRetries], which is enough. *)
Fixpoint retry_loop {A} (fn : M A) (maxRetries : nat) (fuel i : nat)
         (delay : Q) (lastError : thrown) : M A :=
  match fuel with
  | O => throw lastError
  | S fuel' =>
      if (i <? maxRetries)%nat then
        try_catch fn (fun error =>
          console_log [PStr "Attempt "; PNat (i + 1); PStr "/"; PNat maxRetries;
                       PStr " failed: "; PStr (message_or_string error)] ;;;
          if (i <? maxRetries - 1)%nat then
            console_log [PStr "Waiting "; PNum (delay / (1000 # 1));
                         PStr " seconds before retrying..."] ;;;
            sleep delay ;;;
            retry_loop fn maxRetries fuel' (S i) (next_delay delay) error
          else
            retry_loop fn maxRetries fuel' (S i) delay error)
      else throw lastError
  end.

Definition executeWithRetry {A} (fn : M A) (maxRetries : nat) (delay : Q) : M A :=
  retry_loop fn maxRetries maxRetries 0 delay Undefined.

(** The call sites all use the default arguments [maxRetries = 5],
    [delay = 3000]. *)
Definition retry {A} (fn : M A) : M A := executeWithRetry fn 5 (3000 # 1).

(** ** [tokenTransfer] *)

(** [error.toString()]; reading a property of [undefined] is a TypeError. *)
Definition toString (e : thrown) : M string :=
  match e with
  | Undefined =>
      throw (ErrorObj "TypeError"
               "Cannot read properties of undefined (reading 'toString')")
  | _ => ret (String_of e)
  end.

Definition fee_error : thrown :=
  StrVal "The amount requested is too low to cover the fee and any native gas requested.".

Definition tokenTransfer (token : TokenId) (amount : Z)
           (source destination : SignerStuff) (automatic : bool)
  : M (list string) :=
  xfer <- invoke (CTokenTransfer token amount (ss_address source)
                    (ss_address destination) automatic) ;;
  quote <- invoke (CQuoteTransfer (ss_chain source) (ss_chain destination)) ;;
  if transfer_automatic xfer && (destinationToken_amount quote <? 0) then
    throw fee_error
  else
    srcTxids <- invoke (CInitiateTransfer (ss_signer source)) ;;
    console_log [PStr "Executing cross-chain operation and returning monitoring hash:"] ;;;
    console_log [PStr "Wormhole Hash: "; PElem (nth_error srcTxids 0)] ;;;
    console_log [PStr "Wormhole Hash: ";
                 PElem (match nth_error srcTxids 1 with
                           | Some h => Some h
                           | None => nth_error srcTxids 0
                           end)] ;;;
    console_log [PStr "Querying cross-chain proof..."] ;;;
    attestIds <- invoke (CFetchAttestation 60000) ;;
    console_log [PStr "Cross-chain proof query completed:"; PIds attestIds] ;;;
    console_log [PStr "Cross-chain proof query completed"] ;;;
    try_catch
      (destTxids <- invoke (CCompleteTransfer (ss_signer destination)) ;;
       console_log [PStr "Cross-chain transfer completed, hash: "; PList destTxids])
      (fun error =>
         text <- toString error ;;
         if includes "transfer already completed" text then
           console_log [PStr "Transfer has already been completed, possibly automatically by a relayer or successfully completed previously"] ;;;
           console_log [PStr "This is not an error, your assets should have reached the destination chain"]
         else throw error) ;;;
    ret srcTxids.

(** ** [executeCrossChainTransfer] *)

Definition executeCrossChainTransfer (amt : string) : M TransferResult :=
  console_log [PStr "Starting cross-chain transfer..."] ;;;
  invoke CWormhole ;;;
  let sendChain := Solana in
  let rcvChain := Sepolia in
  source <- invoke (CGetSigner sendChain) ;;
  console_log [PStr ("Sender: " ++ ss_address source)] ;;;
  destination <- invoke (CGetSigner rcvChain) ;;
  console_log [PStr ("Receiver: " ++ ss_address destination)] ;;;
  let token := tokenId sendChain "native" in
  console_log [PStr ("Getting cross-chain token: " ++ tok_address token)] ;;;
  let automatic := false in
  decimals <- invoke (CGetTokenDecimals token sendChain) ;;
  srcTxids <-
    try_catch
      (units <- invoke (CAmountUnits amt decimals) ;;
       tokenTransfer token units source destination automatic)
      (fun e => console_log [PThrown e] ;;; ret [""]) ;;
  ret {| sourceAddress := ss_address source;
         destinationAddress := ss_address destination;
         amount := amt;
         wormholeHash := nth_error srcTxids 0 |}.

(** ** [executeStaking] *)

Definition missing_key : thrown :=
  ErrorObj "Error" "Missing ETH_PRIVATE_KEY environment variable".

(** [new ethers.Wallet(privateKey, provider)], inside the [try] of each
    ledger operation: the address of the wallet, or the [TypeError] for a
    key that is not a private key.  The provider and the contract objects
    around it are built without a call and without a throw. *)
Definition new_wallet : M string :=
  match invalid_key with
  | Some message => throw (ErrorObj "TypeError" message)
  | None => ret wallet_address
  end.

Definition executeStaking (userAddress : string) : M (option StakePosition) :=
  console_log [PStr "Starting staking operation..."] ;;;
  if falsy ETH_PRIVATE_KEY then throw missing_key
  else
    try_catch
      (new_wallet ;;;
       isMinter <- retry (invoke (CMinters LOAN_TOKEN_ADDRESS STAKING_CONTRACT_ADDRESS)) ;;
       (if negb isMinter then
          console_log [PStr "Staking contract is not a minter, adding minting permission..."] ;;;
          addMinterTx <- retry (invoke (CAddMinter LOAN_TOKEN_ADDRESS STAKING_CONTRACT_ADDRESS)) ;;
          console_log [PStr ("Add minter transaction submitted, transaction hash: "
                             ++ tx_hash addMinterTx)] ;;;
          retry (invoke (CWait addMinterTx)) ;;;
          console_log [PStr "Add minter transaction confirmed"]
        else
          console_log [PStr "Staking contract is already a minter"]) ;;;
       balance <- retry (invoke (CBalanceOf WRAPPED_SOL_ADDRESS userAddress)) ;;
       decimals <- retry (invoke (CDecimals WRAPPED_SOL_ADDRESS)) ;;
       console_log [PStr ("Wrapped SOL balance: " ++ formatUnits balance decimals ++ " SOL")] ;;;
       if 0 <? balance then
         console_log [PStr "Approving staking contract to use Wrapped SOL..."] ;;;
         approveTx <- retry (invoke (CApprove WRAPPED_SOL_ADDRESS STAKING_CONTRACT_ADDRESS balance)) ;;
         console_log [PStr ("Approval transaction submitted, transaction hash: "
                            ++ tx_hash approveTx)] ;;;
         retry (invoke (CWait approveTx)) ;;;
         console_log [PStr "Approval transaction confirmed"] ;;;
         console_log [PStr "Executing staking operation..."] ;;;
         stakeTx <- retry (invoke (CStake STAKING_CONTRACT_ADDRESS balance)) ;;
         console_log [PStr ("Staking transaction submitted, transaction hash: "
                            ++ tx_hash stakeTx)] ;;;
         retry (invoke (CWait stakeTx)) ;;;
         console_log [PStr "Staking transaction confirmed"] ;;;
         position <- retry (invoke (CGetUserStake STAKING_CONTRACT_ADDRESS userAddress)) ;;
         let '(staked, loaned) := position in
         console_log [PStr "Staking status:"] ;;;
         console_log [PStr ("- Staked amount: " ++ formatUnits staked decimals ++ " SOL")] ;;;
         console_log [PStr ("- Loaned amount: " ++ formatUnits loaned 18 ++ " CCLT")] ;;;
         ret (Some {| stakedAmount := formatUnits staked decimals;
                      loanedAmount := formatUnits loaned 18 |})
       else
         console_log [PStr "No Wrapped SOL to stake, please ensure cross-chain transfer was successful"] ;;;
         ret None)
      (fun error =>
         console_error [PStr "Staking operation failed:"; PThrown error] ;;;
         throw error).

(** ** [executeUnstake] *)

Definition insufficient_loan_balance (loaned loanBalance : Z) : thrown :=
  ErrorObj "Error"
    ("Insufficient loan token balance, cannot unstake. Need "
     ++ formatUnits loaned 18 ++ " CCLT but only have "
     ++ formatUnits loanBalance 18 ++ " CCLT").

Definition executeUnstake : M (option UnstakeResult) :=
  console_log [PStr "Starting unstaking operation..."] ;;;
  if falsy ETH_PRIVATE_KEY then throw missing_key
  else
    try_catch
      (userAddress <- new_wallet ;;
       position <- retry (invoke (CGetUserStake STAKING_CONTRACT_ADDRESS userAddress)) ;;
       let '(staked, loaned) := position in
       decimals <- retry (invoke (CDecimals WRAPPED_SOL_ADDRESS)) ;;
       console_log [PStr "Current staking status:"] ;;;
       console_log [PStr ("- Staked amount: " ++ formatUnits staked decimals ++ " SOL")] ;;;
       console_log [PStr ("- Loaned amount: " ++ formatUnits loaned 18 ++ " CCLT")] ;;;
       if staked <=? 0 then
         console_log [PStr "No stakes to unstake"] ;;;
         ret None
       else
         loanBalance <- retry (invoke (CBalanceOf LOAN_TOKEN_ADDRESS userAddress)) ;;
         console_log [PStr ("Loan token balance: " ++ formatUnits loanBalance 18 ++ " CCLT")] ;;;
         if loanBalance <? loaned then
           throw (insufficient_loan_balance loaned loanBalance)
         else
           console_log [PStr "Approving staking contract to use loan tokens..."] ;;;
           approveTx <- retry (invoke (CApprove LOAN_TOKEN_ADDRESS STAKING_CONTRACT_ADDRESS loaned)) ;;
           console_log [PStr ("Approval transaction submitted, transaction hash: "
                              ++ tx_hash approveTx)] ;;;
           retry (invoke (CWait approveTx)) ;;;
           console_log [PStr "Approval transaction confirmed"] ;;;
           console_log [PStr "Executing unstaking operation..."] ;;;
           unstakeTx <- retry (invoke (CUnstake STAKING_CONTRACT_ADDRESS staked)) ;;
           console_log [PStr ("Unstaking transaction submitted, transaction hash: "
                              ++ tx_hash unstakeTx)] ;;;
           retry (invoke (CWait unstakeTx)) ;;;
           console_log [PStr "Unstaking transaction confirmed"] ;;;
           newBalance <- retry (invoke (CBalanceOf WRAPPED_SOL_ADDRESS userAddress)) ;;
           console_log [PStr ("Wrapped SOL balance after unstaking: "
                              ++ formatUnits newBalance decimals ++ " SOL")] ;;;
           newPosition <- retry (invoke (CGetUserStake STAKING_CONTRACT_ADDRESS userAddress)) ;;
           let '(newStaked, newLoaned) := newPosition in
           console_log [PStr "New staking status:"] ;;;
           console_log [PStr ("- Staked amount: " ++ formatUnits newStaked decimals ++ " SOL")] ;;;
           console_log [PStr ("- Loaned amount: " ++ formatUnits newLoaned 18 ++ " CCLT")] ;;;
           ret (Some {| withdrawnAmount := formatUnits staked decimals;
                        newStakedAmount := formatUnits newStaked decimals;
                        newLoanedAmount := formatUnits newLoaned 18 |}))
      (fun error =>
         console_error [PStr "Unstaking operation failed:"; PThrown error] ;;;
         throw error).

(** ** [POST /api/cross-chain-stake] *)

(** [error.message || fallback] in a [catch (error: any)]. *)
Definition message_of (error : thrown) (fallback : string) : M string :=
  match error with
  | Undefined =>
      throw (ErrorObj "TypeError"
               "Cannot read properties of undefined (reading 'message')")
  | _ => ret (message_or error fallback)
  end.

(** [amount] is [req.body.amount] of a body that gives it as a string, or
    leaves it out ([None]).  The other values a JSON body can hold there (a
    number, a boolean, [null], an array or an object) are outside this
    model. *)
Definition cross_chain_stake (amount : option string) : M Response :=
  try_catch
    (match amount with
     | Some amt =>
         if falsy amount || le_zero (parseFloat amt) then
           ret (Status400 "Please provide a valid amount")
         else
           crossChainResult <- executeCrossChainTransfer amt ;;
           console_log [PStr "Waiting 30 seconds to ensure assets have arrived..."] ;;;
           sleep (30000 # 1) ;;;
           stakingResult <- executeStaking (destinationAddress crossChainResult) ;;
           ret (Status200 "Cross-chain staking operation completed successfully"
                  crossChainResult stakingResult)
     | None => ret (Status400 "Please provide a valid amount")
     end)
    (fun error =>
       console_error [PStr "API error:"; PThrown error] ;;;
       message <- message_of error "Error executing cross-chain staking" ;;
       ret (Status500 message)).

End Orchestrator.

(** ** The other operations of [cross-chain-staking.ts] and [server.ts] *)

(** The JSON replies of [POST /api/unstake]. *)
Inductive UnstakeResponse : Type :=
| Unstake200 (message withdrawnAmount : string)
| Unstake400 (message : string)
| Unstake500 (message : string).

(** The JSON replies of [GET /api/stake-info]. *)
Inductive StakeInfoResponse : Type :=
| StakeInfo200 (message : string) (position : StakePosition)
| StakeInfo500 (message : string).

Section Operations.

Context {env : Environment}.

Notation "x <- m ;; k" := (bind m (fun x => k))
  (at level 100, m at next level, right associativity).
Notation "m ;;; k" := (bind m (fun _ => k))
  (at level 100, right associativity).

(** [getStakeInfo] *)
Definition getStakeInfo : M StakePosition :=
  console_log [PStr "Starting to query staking status..."] ;;;
  if falsy ETH_PRIVATE_KEY then throw missing_key
  else
    try_catch
      (userAddress <- new_wallet ;;
       console_log [PStr ("Querying staking status for user " ++ userAddress ++ "...")] ;;;
       position <- retry (invoke (CGetUserStake STAKING_CONTRACT_ADDRESS userAddress)) ;;
       let '(staked, loaned) := position in
       decimals <- retry (invoke (CDecimals WRAPPED_SOL_ADDRESS)) ;;
       console_log [PStr "Staking status:"] ;;;
       console_log [PStr ("- Staked amount: " ++ formatUnits staked decimals ++ " SOL")] ;;;
       console_log [PStr ("- Loaned amount: " ++ formatUnits loaned 18 ++ " CCLT")] ;;;
       ret {| stakedAmount := formatUnits staked decimals;
              loanedAmount := formatUnits loaned 18 |})
      (fun error =>
         console_error [PStr "Failed to query staking status:"; PThrown error] ;;;
         throw error).

(** The script run when the module is the entry point; it returns the code
    given to [process.exit]. *)
Definition main : M Z :=
  console_log [PStr "Starting cross-chain staking process..."] ;;;
  try_catch
    (crossChainResult <- executeCrossChainTransfer "0.01" ;;
     console_log [PStr "Cross-chain transfer completed, waiting for assets to reach the destination chain..."] ;;;
     console_log [PStr "Waiting 30 seconds to ensure assets have arrived..."] ;;;
     sleep (30000 # 1) ;;;
     executeStaking (destinationAddress crossChainResult) ;;;
     console_log [PStr "The entire cross-chain staking process has been completed!"])
    (fun error => console_error [PStr "Error during execution:"; PThrown error]) ;;;
  ret 0.

(** [POST /api/unstake] *)
Definition unstake_handler : M UnstakeResponse :=
  try_catch
    (console_log [PStr "Starting unstaking operation..."] ;;;
     result <- executeUnstake ;;
     match result with
     | Some r =>
         ret (Unstake200 "Unstaking operation completed successfully"
                (withdrawnAmount r))
     | None => ret (Unstake400 "No stakes to unstake")
     end)
    (fun error =>
       console_error [PStr "API error:"; PThrown error] ;;;
       message <- message_of error "Error executing unstaking" ;;
       ret (Unstake500 message)).

(** [GET /api/stake-info] *)
Definition stake_info_handler : M StakeInfoResponse :=
  try_catch
    (console_log [PStr "Starting to query staking status..."] ;;;
     stakeInfo <- getStakeInfo ;;
     ret (StakeInfo200 "Staking status query successful" stakeInfo))
    (fun error =>
       console_error [PStr "API error:"; PThrown error] ;;;
       message <- message_of error "Error querying staking status" ;;
       ret (StakeInfo500 message)).

(** [tokenTransfer] of [native-transfer.ts]: the same bridge calls, without
    the [try] around the completion call and without a return value. *)
Definition native_tokenTransfer (token : TokenId) (amount : Z)
           (source destination : SignerStuff) (automatic : bool)
  : M unit :=
  xfer <- invoke (CTokenTransfer token amount (ss_address source)
                    (ss_address destination) automatic) ;;
  quote <- invoke (CQuoteTransfer (ss_chain source) (ss_chain destination)) ;;
  if transfer_automatic xfer && (destinationToken_amount quote <? 0) then
    throw fee_error
  else
    srcTxids <- invoke (CInitiateTransfer (ss_signer source)) ;;
    console_log [PStr "执行跨链操作并返回监听hash:"] ;;;
    console_log [PStr "Wormhole Hash: "; PElem (nth_error srcTxids 0)] ;;;
    console_log [PStr "Wormhole Hash: ";
                 PElem (match nth_error srcTxids 1 with
                           | Some h => Some h
                           | None => nth_error srcTxids 0
                           end)] ;;;
    console_log [PStr "查询跨链证明中....."] ;;;
    attestIds <- invoke (CFetchAttestation 60000) ;;
    console_log [PStr "查询跨链证明完成："; PIds attestIds] ;;;
    destTxids <- invoke (CCompleteTransfer (ss_signer destination)) ;;
    console_log [PStr "跨链完成,跨链hash: "; PList destTxids].

End Operations.

(** ** The contracts: [CrossChainStaking.sol] and [LoanToken.sol]

    Solidity 0.8 arithmetic on [uint256]: every [+], [-], [*] and [/] is
    checked, and a transaction that overflows, underflows, divides by zero
    or fails a [require] reverts, leaving the state as it was.  A call
    returns either the revert reason or the new state. *)

Module Contract.

Definition address : Type := Z.

Definition MAX_UINT256 : Z := 2 ^ 256 - 1.

Definition result (A : Type) : Type := (string + A)%type.

Definition ok {A} (a : A) : result A := inr a.
Definition revert {A} (reason : string) : result A := inl reason.

Definition and_then {A B} (r : result A) (k : A -> result B) : result B :=
  match r with
  | inr a => k a
  | inl reason => inl reason
  end.

Notation "x <- r ;; k" := (and_then r (fun x => k))
  (at level 100, r at next level, right associativity).

Definition require (b : bool) (reason : string) : result unit :=
  if b then ok tt else revert reason.

Definition panic_overflow := "Panic(0x11)".
Definition panic_division := "Panic(0x12)".

Definition checked_add (a b : Z) : result Z :=
  if a + b <=? MAX_UINT256 then ok (a + b) else revert panic_overflow.

Definition checked_sub (a b : Z) : result Z :=
  if b <=? a then ok (a - b) else revert panic_overflow.

Definition checked_mul (a b : Z) : result Z :=
  if a * b <=? MAX_UINT256 then ok (a * b) else revert panic_overflow.

Definition checked_div (a b : Z) : result Z :=
  if b =? 0 then revert panic_division else ok (a / b).

(** A [mapping(address => T)], with an assignment to one key. *)
Definition set {T} (m : address -> T) (k : address) (v : T) : address -> T :=
  fun k' => if k' =? k then v else m k'.

(** *** ERC20 (OpenZeppelin): the balances the two contracts move *)

Record ERC20 : Type := {
  balanceOf : address -> Z;
  allowance : address -> address -> Z;   (* owner, spender *)
  totalSupply : Z
}.

(** [_mint(to, amount)] *)
Definition _mint (t : ERC20) (to amount : Z) : result ERC20 :=
  _ <- require (negb (to =? 0)) "ERC20InvalidReceiver" ;;
  supply <- checked_add (totalSupply t) amount ;;
  ok {| balanceOf := set (balanceOf t) to (balanceOf t to + amount);
        allowance := allowance t;
        totalSupply := supply |}.

(** [_burn(from, amount)] *)
Definition _burn (t : ERC20) (from amount : Z) : result ERC20 :=
  _ <- require (negb (from =? 0)) "ERC20InvalidSender" ;;
  _ <- require (amount <=? balanceOf t from) "ERC20InsufficientBalance" ;;
  ok {| balanceOf := set (balanceOf t) from (balanceOf t from - amount);
        allowance := allowance t;
        totalSupply := totalSupply t - amount |}.

(** [_transfer(from, to, amount)] *)
Definition _transfer (t : ERC20) (from to amount : Z) : result ERC20 :=
  _ <- require (negb (from =? 0)) "ERC20InvalidSender" ;;
  _ <- require (negb (to =? 0)) "ERC20InvalidReceiver" ;;
  _ <- require (amount <=? balanceOf t from) "ERC20InsufficientBalance" ;;
  let debited := set (balanceOf t) from (balanceOf t from - amount) in
  ok {| balanceOf := set debited to (debited to + amount);
        allowance := allowance t;
        totalSupply := totalSupply t |}.

(** [transferFrom(from, to, amount)] called by [spender] *)
Definition transferFrom (t : ERC20) (spender from to amount : Z) : result ERC20 :=
  let allowed := allowance t from spender in
  t' <- (if allowed =? MAX_UINT256 then ok t
         else
           _ <- require (amount <=? allowed) "ERC20InsufficientAllowance" ;;
           ok {| balanceOf := balanceOf t;
                 allowance := set (allowance t) from
                                (set (allowance t from) spender (allowed - amount));
                 totalSupply := totalSupply t |}) ;;
  _transfer t' from to amount.

(** *** [LoanToken] *)

Record LoanToken : Type := {
  token : ERC20;
  minters : address -> bool
}.

(** [mint(to, amount)] called by [sender] *)
Definition mint (l : LoanToken) (sender to amount : Z) : result LoanToken :=
  _ <- require (minters l sender) "Caller is not a minter" ;;
  t <- _mint (token l) to amount ;;
  ok {| token := t; minters := minters l |}.

(** [burn(from, amount)] called by [sender] *)
Definition burn (l : LoanToken) (sender from amount : Z) : result LoanToken :=
  _ <- require (minters l sender) "Caller is not a minter" ;;
  t <- _burn (token l) from amount ;;
  ok {| token := t; minters := minters l |}.

(** *** [CrossChainStaking] *)

Record StakeInfo : Type := {
  stakedAmount : Z;
  loanedAmount : Z
}.

(** The staking contract together with the two token contracts it calls. *)
Record State : Type := {
  this : address;               (* address(this) *)
  stakingToken : ERC20;
  loanToken : LoanToken;
  loanRatio : Z;
  stakes : address -> StakeInfo;
  totalStaked : Z
}.

Inductive Event : Type :=
| Staked (user : address) (amount loanedAmount : Z)
| Unstaked (user : address) (amount burnedAmount : Z).

(** [stake(amount)] called by [sender] *)
Definition stake (s : State) (sender amount : Z) : result (State * Event) :=
  _ <- require (0 <? amount) "Amount must be positive" ;;
  stakingToken' <- transferFrom (stakingToken s) (this s) sender (this s) amount ;;
  loanAmount <- checked_mul amount (loanRatio s) ;;
  staked <- checked_add (stakedAmount (stakes s sender)) amount ;;
  loaned <- checked_add (loanedAmount (stakes s sender)) loanAmount ;;
  total <- checked_add (totalStaked s) amount ;;
  loanToken' <- mint (loanToken s) (this s) sender loanAmount ;;
  ok ({| this := this s;
         stakingToken := stakingToken';
         loanToken := loanToken';
         loanRatio := loanRatio s;
         stakes := set (stakes s) sender
                     {| stakedAmount := staked; loanedAmount := loaned |};
         totalStaked := total |},
      Staked sender amount loanAmount).

(** [unstake(amount)] called by [sender] *)
Definition unstake (s : State) (sender amount : Z) : result (State * Event) :=
  _ <- require (0 <? amount) "Amount must be positive" ;;
  _ <- require (amount <=? stakedAmount (stakes s sender))
         "Insufficient staked amount" ;;
  product <- checked_mul amount (loanedAmount (stakes s sender)) ;;
  burnAmount <- checked_div product (stakedAmount (stakes s sender)) ;;
  _ <- require (0 <? burnAmount) "Burn amount too small" ;;
  staked <- checked_sub (stakedAmount (stakes s sender)) amount ;;
  loaned <- checked_sub (loanedAmount (stakes s sender)) burnAmount ;;
  total <- checked_sub (totalStaked s) amount ;;
  loanToken' <- burn (loanToken s) (this s) sender burnAmount ;;
  stakingToken' <- _transfer (stakingToken s) (this s) sender amount ;;
  ok ({| this := this s;
         stakingToken := stakingToken';
         loanToken := loanToken';
         loanRatio := loanRatio s;
         stakes := set (stakes s) sender
                     {| stakedAmount := staked; loanedAmount := loaned |};
         totalStaked := total |},
      Unstaked sender amount burnAmount).

(** [getUserStake(user)] *)
Definition getUserStake (s : State) (user : address) : Z * Z :=
  (stakedAmount (stakes s user), loanedAmount (stakes s user)).

(** [LoanToken.transfer(to, amount)] called by [sender], as [ERC20] gives
    it to every holder. *)
Definition loan_transfer (s : State) (sender to amount : Z) : result State :=
  t <- _transfer (token (loanToken s)) sender to amount ;;
  ok {| this := this s;
        stakingToken := stakingToken s;
        loanToken := {| token := t; minters := minters (loanToken s) |};
        loanRatio := loanRatio s;
        stakes := stakes s;
        totalStaked := totalStaked s |}.

(** What [stake(amount)] asks for, in the order it is checked: a positive
    amount; the contract allowed to take it and the sender holding it; the
    loan and the sums in the range of [uint256]; the contract a minter of
    the loan token. *)
Definition stake_passes (s : State) (sender amount : Z) : Prop :=
  0 < amount /\
  (allowance (stakingToken s) sender (this s) = MAX_UINT256 \/
   amount <= allowance (stakingToken s) sender (this s)) /\
  sender <> 0 /\ this s <> 0 /\
  amount <= balanceOf (stakingToken s) sender /\
  amount * loanRatio s <= MAX_UINT256 /\
  stakedAmount (stakes s sender) + amount <= MAX_UINT256 /\
  loanedAmount (stakes s sender) + amount * loanRatio s <= MAX_UINT256 /\
  totalStaked s + amount <= MAX_UINT256 /\
  minters (loanToken s) (this s) = true /\
  totalSupply (token (loanToken s)) + amount * loanRatio s <= MAX_UINT256.

(** What [unstake(amount)] asks for, in the order it is checked: a positive
    amount within the stake; the product in the range of [uint256]; a
    positive burn within the recorded loan; the amount within the total;
    the contract a minter and the sender holding the burn; the contract
    holding the amount. *)
Definition unstake_passes (s : State) (sender amount : Z) : Prop :=
  let staked := stakedAmount (stakes s sender) in
  let loaned := loanedAmount (stakes s sender) in
  let burnAmount := amount * loaned / staked in
  0 < amount <= staked /\
  amount * loaned <= MAX_UINT256 /\
  0 < burnAmount <= loaned /\
  amount <= totalStaked s /\
  minters (loanToken s) (this s) = true /\
  sender <> 0 /\
  burnAmount <= balanceOf (token (loanToken s)) sender /\
  this s <> 0 /\
  amount <= balanceOf (stakingToken s) (this s).

End Contract.

(** *** The owner's side of the two contracts, and [stakeForUser] *)

Module Admin.

Import Contract.

Notation "x <- r ;; k" := (and_then r (fun x => k))
  (at level 100, r at next level, right associativity).

(** The deployed pair: the staking contract with the tokens it calls, and
    the owners that [Ownable] keeps for the staking contract and for the
    loan token. *)
Record System : Type := {
  staking : State;
  stakingOwner : address;
  loanOwner : address
}.

(** The modifier [onlyOwner]. *)
Definition onlyOwner (owner sender : address) : result unit :=
  require (sender =? owner) "OwnableUnauthorizedAccount".

Definition with_minters (s : State) (m : address -> bool) : State :=
  {| this := this s;
     stakingToken := stakingToken s;
     loanToken := {| token := token (loanToken s); minters := m |};
     loanRatio := loanRatio s;
     stakes := stakes s;
     totalStaked := totalStaked s |}.

(** [LoanToken.addMinter(minter)] called by [sender] *)
Definition addMinter (y : System) (sender minter : address) : result System :=
  _ <- onlyOwner (loanOwner y) sender ;;
  _ <- require (negb (minter =? 0)) "Invalid minter address" ;;
  ok {| staking := with_minters (staking y)
                     (set (minters (loanToken (staking y))) minter true);
        stakingOwner := stakingOwner y;
        loanOwner := loanOwner y |}.

(** [LoanToken.removeMinter(minter)] called by [sender] *)
Definition removeMinter (y : System) (sender minter : address) : result System :=
  _ <- onlyOwner (loanOwner y) sender ;;
  _ <- require (minters (loanToken (staking y)) minter) "Not a minter" ;;
  ok {| staking := with_minters (staking y)
                     (set (minters (loanToken (staking y))) minter false);
        stakingOwner := stakingOwner y;
        loanOwner := loanOwner y |}.

(** [CrossChainStaking.updateLoanRatio(newRatio)] called by [sender] *)
Definition updateLoanRatio (y : System) (sender newRatio : Z) : result System :=
  _ <- onlyOwner (stakingOwner y) sender ;;
  _ <- require (0 <? newRatio) "Loan ratio must be positive" ;;
  ok {| staking := {| this := this (staking y);
                      stakingToken := stakingToken (staking y);
                      loanToken := loanToken (staking y);
                      loanRatio := newRatio;
                      stakes := stakes (staking y);
                      totalStaked := totalStaked (staking y) |};
        stakingOwner := stakingOwner y;
        loanOwner := loanOwner y |}.

(** [CrossChainStaking.stakeForUser(user, amount)] called by [sender] *)
Definition stakeForUser (s : State) (sender user amount : Z)
  : result (State * Event) :=
  _ <- require (negb (user =? 0)) "Invalid user address" ;;
  _ <- require (0 <? amount) "Amount must be positive" ;;
  stakingToken' <- transferFrom (stakingToken s) (this s) sender (this s) amount ;;
  loanAmount <- checked_mul amount (loanRatio s) ;;
  staked <- checked_add (stakedAmount (stakes s user)) amount ;;
  loaned <- checked_add (loanedAmount (stakes s user)) loanAmount ;;
  total <- checked_add (totalStaked s) amount ;;
  loanToken' <- mint (loanToken s) (this s) user loanAmount ;;
  ok ({| this := this s;
         stakingToken := stakingToken';
         loanToken := loanToken';
         loanRatio := loanRatio s;
         stakes := set (stakes s) user
                     {| stakedAmount := staked; loanedAmount := loaned |};
         totalStaked := total |},
      Staked user amount loanAmount).

(** [CrossChainStaking.emergencyWithdraw(token, amount)] called by [sender],
    for [token] the staking token: [safeTransfer(owner(), amount)] from the
    contract's own balance. *)
Definition emergencyWithdraw (y : System) (sender amount : Z) : result System :=
  _ <- onlyOwner (stakingOwner y) sender ;;
  stakingToken' <- _transfer (stakingToken (staking y)) (this (staking y))
                     (stakingOwner y) amount ;;
  ok {| staking := {| this := this (staking y);
                      stakingToken := stakingToken';
                      loanToken := loanToken (staking y);
                      loanRatio := loanRatio (staking y);
                      stakes := stakes (staking y);
                      totalStaked := totalStaked (staking y) |};
        stakingOwner := stakingOwner y;
        loanOwner := loanOwner y |}.

(** What the staking contract keeps for every user: a positive ratio, and
    a loan at least as large as the stake. *)
Definition sound (s : State) : Prop :=
  0 < loanRatio s /\
  forall u, 0 <= stakedAmount (stakes s u) <= loanedAmount (stakes s u).

End Admin.

(** ** The log stream of [server.ts]

    [clients] is the array of connected observers.  A response is a handle;
    [broken] says what a write to it throws, when it throws. *)

Module LogStream.

Record Client : Type := { id : string; response : nat }.

Record Server : Type := {
  clients : list Client;
  broken : nat -> option thrown;
  stdout : list string;          (* what [originalConsoleLog] printed *)
  wire : list (nat * string)     (* what was written, to which response *)
}.

Definition newline : string := String (ascii_of_nat 10) "".

(** [`data: ${message}\n\n`] *)
Definition frame (message : string) : string :=
  "data: " ++ message ++ newline ++ newline.

Definition originalConsoleLog (message : string) (sv : Server) : Server :=
  {| clients := clients sv; broken := broken sv;
     stdout := stdout sv ++ [message]; wire := wire sv |}.

(** The body of the [forEach]: the write, inside its [try]. *)
Definition write_to (message : string) (sv : Server) (client : Client) : Server :=
  match broken sv (response client) with
  | None =>
      {| clients := clients sv; broken := broken sv; stdout := stdout sv;
         wire := wire sv ++ [(response client, frame message)] |}
  | Some error =>
      originalConsoleLog ("Failed to send log: " ++ String_of error) sv
  end.

Definition sendLogToAll (message : string) (sv : Server) : Server :=
  let sv' := originalConsoleLog message sv in
  fold_left (write_to message) (clients sv') sv'.

(** The redirected [console.log], for string arguments. *)
Definition console_log (args : list string) (sv : Server) : Server :=
  sendLogToAll (String.concat " " args) sv.

(** [GET /api/logs]: the greeting is written outside any [try]; [now] is
    [Date.now().toString()]. *)
Definition connect (now : string) (res : nat) (sv : Server) : thrown + Server :=
  match broken sv res with
  | Some error => inl error
  | None =>
      inr {| clients := clients sv ++ [{| id := now; response := res |}];
             broken := broken sv; stdout := stdout sv;
             wire := wire sv ++ [(res, frame "Connected to log stream")] |}
  end.

(** [findIndex] and [splice(index, 1)]: drops the first client with the id. *)
Fixpoint remove_first (clientId : string) (l : list Client) : list Client :=
  match l with
  | [] => []
  | c :: rest =>
      if String.eqb (id c) clientId then rest
      else c :: remove_first clientId rest
  end.

(** The [close] handler of a connection. *)
Definition on_close (clientId : string) (sv : Server) : Server :=
  {| clients := remove_first clientId (clients sv); broken := broken sv;
     stdout := stdout sv; wire := wire sv |}.

(** The writes one pass over the observers [l] adds: one to each whose
    connection takes it. *)
Definition delivered (message : string) (sv : Server) (l : list Client)
  : list (nat * string) :=
  map (fun c => (response c, frame message))
      (filter (fun c => match broken sv (response c) with
                        | None => true
                        | Some _ => false
                        end) l).

(** The local lines one pass adds: one for each observer whose connection
    throws. *)
Definition complaints (sv : Server) (l : list Client) : list string :=
  flat_map (fun c => match broken sv (response c) with
                     | Some error => ["Failed to send log: " ++ String_of error]
                     | None => []
                     end) l.

(** What a response has been sent, oldest first. *)
Definition received (res : nat) (sv : Server) : list string :=
  map snd (filter (fun p => Nat.eqb (fst p) res) (wire sv)).

(** How many times a response is registered. *)
Definition registrations (res : nat) (sv : Server) : nat :=
  List.length (filter (fun c => Nat.eqb (response c) res) (clients sv)).

End LogStream.

(** ** Reading a trace *)

Definition call_of (e : event) : call :=
  match e with Ev c _ => c end.

(** The calls made, oldest first. *)
Definition calls (tr : list event) : list call := map call_of tr.

(** A call that was rejected, with what it was rejected with. *)
Definition failure (e : event) : option (call * thrown) :=
  match e with
  | Ev c (inl err) => Some (c, err)
  | Ev _ (inr _) => None
  end.

Fixpoint failures (tr : list event) : list (call * thrown) :=
  match tr with
  | [] => []
  | e :: rest =>
      match failure e with
      | Some f => f :: failures rest
      | None => failures rest
      end
  end.

(** The first event of a trace that [f] reads something from. *)
Fixpoint first {A} (f : event -> option A) (tr : list event) : option A :=
  match tr with
  | [] => None
  | e :: rest =>
      match f e with
      | Some a => Some a
      | None => first f rest
      end
  end.

Definition Chain_eqb (a b : Chain) : bool :=
  match a, b with
  | Solana, Solana | Sepolia, Sepolia => true
  | _, _ => false
  end.

(** What a resolved call answered, by kind of call. *)
Definition read_signer (ch : Chain) (e : event) : option SignerStuff :=
  match e with
  | Ev (CGetSigner c) (inr signer) => if Chain_eqb c ch then Some signer else None
  | _ => None
  end.

Definition read_xfer (e : event) : option Xfer :=
  match e with
  | Ev (CTokenTransfer _ _ _ _ _) (inr xfer) => Some xfer
  | _ => None
  end.

Definition read_quote (e : event) : option Quote :=
  match e with
  | Ev (CQuoteTransfer _ _) (inr quote) => Some quote
  | _ => None
  end.

Definition read_initiate (e : event) : option (list string) :=
  match e with
  | Ev (CInitiateTransfer _) (inr txids) => Some txids
  | _ => None
  end.

Definition read_stake (e : event) : option (Z * Z) :=
  match e with
  | Ev (CGetUserStake _ _) (inr position) => Some position
  | _ => None
  end.

Definition read_balance (token : string) (e : event) : option Z :=
  match e with
  | Ev (CBalanceOf t _) (inr balance) =>
      if String.eqb t token then Some balance else None
  | _ => None
  end.

(** The calls of the bridge transfer phase, made inside the [try] of
    [executeCrossChainTransfer]. *)
Definition transfer_phase (c : call) : bool :=
  match c with
  | CAmountUnits _ _ | CTokenTransfer _ _ _ _ _ | CQuoteTransfer _ _
  | CInitiateTransfer _ | CFetchAttestation _ | CCompleteTransfer _ => true
  | _ => false
  end.


Definition is_initiate (c : call) : bool :=
  match c with CInitiateTransfer _ => true | _ => false end.

Definition is_approve (c : call) : bool :=
  match c with CApprove _ _ _ => true | _ => false end.

Definition is_stake (c : call) : bool :=
  match c with CStake _ _ => true | _ => false end.

Definition is_unstake (c : call) : bool :=
  match c with CUnstake _ _ => true | _ => false end.

(** The trace holds an approval of the staking contract that resolved to a
    transaction, and later a [wait()] on that transaction that resolved. *)
Definition approval_confirmed (tr : list event) : Prop :=
  exists (token : string) (amount : Z) (tx : Tx)
         (before between after : list event),
    tr = (before
          ++ Ev (CApprove token STAKING_CONTRACT_ADDRESS amount) (inr tx)
          :: between
          ++ Ev (CWait tx) (inr tt)
          :: after)%list.

(** Every call of the kind [dependent] comes after a confirmed approval. *)
Definition approved_first (dependent : call -> bool) (tr : list event) : Prop :=
  forall before c outcome after,
    tr = (before ++ Ev c outcome :: after)%list ->
    dependent c = true ->
    approval_confirmed before.

(** More readings of a trace. *)
Definition read_minters (e : event) : option bool :=
  match e with
  | Ev (CMinters _ _) (inr b) => Some b
  | _ => None
  end.

Definition read_decimals (e : event) : option Z :=
  match e with
  | Ev (CDecimals _) (inr d) => Some d
  | _ => None
  end.

Definition read_token_decimals (e : event) : option Z :=
  match e with
  | Ev (CGetTokenDecimals _ _) (inr d) => Some d
  | _ => None
  end.

(** The amount text, the decimals and the units of a resolved conversion. *)
Definition read_units (e : event) : option (string * Z * Z) :=
  match e with
  | Ev (CAmountUnits text decimals) (inr units) => Some (text, decimals, units)
  | _ => None
  end.

(** The calls that only read the ledger. *)
Definition is_view (c : call) : bool :=
  match c with
  | CMinters _ _ | CBalanceOf _ _ | CDecimals _ | CGetUserStake _ _ => true
  | _ => false
  end.

(** The bridge calls of one transfer, in the order of its phases. *)
Definition transfer_calls (token : TokenId) (amount : Z)
           (source destination : SignerStuff) (automatic : bool) : list call :=
  [CTokenTransfer token amount (ss_address source) (ss_address destination)
     automatic;
   CQuoteTransfer (ss_chain source) (ss_chain destination);
   CInitiateTransfer (ss_signer source);
   CFetchAttestation 60000;
   CCompleteTransfer (ss_signer destination)].

(** The calls [executeStaking] may make for the user [user] and a
    wrapped-SOL balance read of [balance]: the reads of the minting
    permission, of the user's wrapped-SOL balance, of the decimals and of
    the user's position, the grant of the minting permission to the staking
    contract, the approval of exactly the balance to the staking contract,
    the stake of exactly the balance, and [wait()]. *)
Definition staking_call (user : string) (balance : Z) (c : call) : Prop :=
  match c with
  | CMinters token who =>
      token = LOAN_TOKEN_ADDRESS /\ who = STAKING_CONTRACT_ADDRESS
  | CAddMinter token who =>
      token = LOAN_TOKEN_ADDRESS /\ who = STAKING_CONTRACT_ADDRESS
  | CBalanceOf token who => token = WRAPPED_SOL_ADDRESS /\ who = user
  | CDecimals token => token = WRAPPED_SOL_ADDRESS
  | CApprove token spender value =>
      token = WRAPPED_SOL_ADDRESS /\ spender = STAKING_CONTRACT_ADDRESS /\
      value = balance
  | CStake contract value =>
      contract = STAKING_CONTRACT_ADDRESS /\ value = balance
  | CGetUserStake contract who =>
      contract = STAKING_CONTRACT_ADDRESS /\ who = user
  | CWait _ => True
  | _ => False
  end.

(** The calls [executeUnstake] may make for the user [user] and a position
    read of [(staked, loaned)]: the reads of the user's position, of the
    decimals and of the user's balances of the loan token and of wrapped
    SOL, the approval of exactly the loan to the staking contract, the
    unstake of exactly the stake, and [wait()]. *)
Definition unstaking_call (user : string) (staked loaned : Z) (c : call) : Prop :=
  match c with
  | CGetUserStake contract who =>
      contract = STAKING_CONTRACT_ADDRESS /\ who = user
  | CDecimals token => token = WRAPPED_SOL_ADDRESS
  | CBalanceOf token who =>
      (token = LOAN_TOKEN_ADDRESS \/ token = WRAPPED_SOL_ADDRESS) /\ who = user
  | CApprove token spender value =>
      token = LOAN_TOKEN_ADDRESS /\ spender = STAKING_CONTRACT_ADDRESS /\
      value = loaned
  | CUnstake contract value =>
      contract = STAKING_CONTRACT_ADDRESS /\ value = staked
  | CWait _ => True
  | _ => False
  end.

(** The trace holds a grant of the minting permission to the staking
    contract that resolved to a transaction, and later a [wait()] on that
    transaction that resolved. *)
Definition grant_confirmed (tr : list event) : Prop :=
  exists (tx : Tx) (before between after : list event),
    tr = (before
          ++ Ev (CAddMinter LOAN_TOKEN_ADDRESS STAKING_CONTRACT_ADDRESS) (inr tx)
          :: between
          ++ Ev (CWait tx) (inr tt)
          :: after)%list.

(** Every call of the kind [dependent] comes after what [P] asks of the
    trace before it. *)
Definition preceded_by (P : list event -> Prop) (dependent : call -> bool)
           (tr : list event) : Prop :=
  forall before c outcome after,
    tr = (before ++ Ev c outcome :: after)%list ->
    dependent c = true ->
    P before.

Definition is_add_minter (c : call) : bool :=
  match c with CAddMinter _ _ => true | _ => false end.

(** The calls that [executeStaking] makes after the minter check. *)
Definition after_minter_check (c : call) : bool :=
  match c with
  | CBalanceOf _ _ | CDecimals _ | CApprove _ _ _ | CStake _ _
  | CGetUserStake _ _ => true
  | _ => false
  end.

(** The number of calls of a run that made [failed] rejected calls. *)
Definition attempts {A} (failed : list thrown) (r : thrown + A) : nat :=
  match r with
  | inr _ => S (List.length failed)
  | inl _ => List.length failed
  end.

(** The backoff delays: [k] waits starting at [delay]. *)
Fixpoint backoff (delay : Q) (k : nat) : list Q :=
  match k with
  | O => []
  | S k' => delay :: backoff (next_delay delay) k'
  end.

(** A list of delays in which each is at most the next. *)
Fixpoint non_decreasing (l : list Q) : Prop :=
  match l with
  | a :: (b :: _) as rest => (a <= b)%Q /\ non_decreasing rest
  | _ => True
  end.

(** *** What a run did, for the statements about whole operations *)

(** The trace ends with five rejected attempts of one call, the last of
    them rejected with [e]: the retry executor gave up on that call. *)
Definition gave_up_with (e : thrown) (tr : list event) : Prop :=
  exists (c : call) (earlier : list event) (errors : list thrown),
    tr = (earlier ++ map (fun x => Ev c (inl x)) errors)%list /\
    List.length errors = 5%nat /\
    last errors Undefined = e.

(** The operation stopped where it builds the wallet, before any call:
    [e] is the [TypeError] of a key that is not a private key. *)
Definition key_refused {env : Environment} (e : thrown) (tr : list event) : Prop :=
  exists message,
    invalid_key = Some message /\ e = ErrorObj "TypeError" message /\ tr = [].

(** The balance of wrapped SOL that a run read, 0 when it read none. *)
Definition balance_read (tr : list event) : Z :=
  match first (read_balance WRAPPED_SOL_ADDRESS) tr with
  | Some balance => balance
  | None => 0
  end.

Definition no_approve_no_stake (tr : list event) : Prop :=
  Forall (fun ev => is_approve (call_of ev) = false /\
                    is_stake (call_of ev) = false) tr.

(** The position that a run read first, [(0, 0)] when it read none. *)
Definition position_read (tr : list event) : Z * Z :=
  match first read_stake tr with
  | Some position => position
  | None => (0, 0)
  end.

Definition only_views (tr : list event) : Prop :=
  Forall (fun ev => is_view (call_of ev) = true) tr.

(** The [TypeError] of reading [message] of [undefined]. *)
Definition message_of_undefined : thrown :=
  ErrorObj "TypeError" "Cannot read properties of undefined (reading 'message')".

(** What the transfer-and-stake pipeline of a run did for the ledger: every
    balance read is of wrapped SOL, for the address of the Sepolia signer of
    the transfer, and the run first waited 30 s. *)
Definition stakes_at_destination (tr : list event) (waits : list Q) : Prop :=
  forall token who,
    In (CBalanceOf token who) (calls tr) ->
    token = WRAPPED_SOL_ADDRESS /\
    (exists destination,
        first (read_signer Sepolia) tr = Some destination /\
        who = ss_address destination) /\
    hd_error waits = Some (30000 # 1)%Q.

(** The state a run starts in. *)
Definition init {env : Environment} (w : W) : St :=
  {| world := w; trace := []; logs := []; sleeps := [] |}.

(** ** Concrete environments

    Used to run the model on examples.  The world counts the calls it has
    answered; a scenario says which calls are rejected (by call and by how
    many calls came before) and fixes what the others resolve to. *)

Definition digits (n : Z) : string :=
  NilZero.string_of_uint (N.to_uint (Z.to_N n)).

Fixpoint zeros (k : nat) : string :=
  match k with
  | O => ""
  | S k' => "0" ++ zeros k'
  end.

(** Drops the trailing zeros of a string of digits. *)
Fixpoint trim_right (s : string) : string :=
  match s with
  | String c rest =>
      match trim_right rest with
      | EmptyString => if Ascii.eqb c "0" then "" else String c ""
      | t => String c t
      end
  | EmptyString => ""
  end.

(** [formatUnits] of ethers v6: the value with the decimal point [decimals]
    places from the right, at least one digit on each side. *)
Definition ethers_formatUnits (value decimals : Z) : string :=
  let sign := if value <? 0 then "-" else "" in
  let a := Z.abs value in
  if decimals <=? 0 then sign ++ digits a
  else
    let whole := digits (a / 10 ^ decimals) in
    let f := digits (a mod 10 ^ decimals) in
    let padded := zeros (Z.to_nat decimals - String.length f) ++ f in
    let frac := match trim_right padded with EmptyString => "0" | t => t end in
    sign ++ whole ++ "." ++ frac.

Record Scenario : Type := {
  faults : nat -> call -> option thrown;
  quoted : Z;            (* quote.destinationToken.amount *)
  position : Z * Z;      (* getUserStake *)
  loan_balance : Z;      (* balanceOf on the loan token *)
  wsol_balance : Z;      (* balanceOf on wrapped SOL *)
  is_minter : bool;
  under_server : bool;   (* console.log is the redirect of server.ts *)
  key_error : option string   (* what new ethers.Wallet throws, if it does *)
}.

Definition answer (sc : Scenario) (c : call) : resp c :=
  match c return resp c with
  | CWormhole => tt
  | CGetSigner ch =>
      match ch with
      | Solana => {| ss_chain := Solana; ss_signer := "solana-signer";
                     ss_address := "7xKXtg2CW87d97TXJSDpbD5jBkheTqA83TZRuJosgAsU" |}
      | Sepolia => {| ss_chain := Sepolia; ss_signer := "sepolia-signer";
                      ss_address := "0x70997970C51812dc3A010C7d01b50e0d17dc79C8" |}
      end
  | CGetTokenDecimals _ _ => 9
  | CAmountUnits _ _ => 10000000
  | CTokenTransfer _ _ _ _ automatic => {| transfer_automatic := automatic |}
  | CQuoteTransfer _ _ => {| destinationToken_amount := quoted sc |}
  | CInitiateTransfer _ => ["5VERv8NMvzbJMEkV"; "3JbR6kdvZpYc"]
  | CFetchAttestation _ =>
      [MessageId "Solana"
         "3b26409f8aaded3f5ddca184695aa6a0fa829b0c85caf84856324896d214ca98" 42]
  | CCompleteTransfer _ => ["0x9c2a5b17"]
  | CMinters _ _ => is_minter sc
  | CAddMinter _ _ => {| tx_hash := "0xaa01" |}
  | CBalanceOf token _ =>
      if String.eqb token LOAN_TOKEN_ADDRESS then loan_balance sc else wsol_balance sc
  | CDecimals _ => 8
  | CApprove _ _ _ => {| tx_hash := "0xaa02" |}
  | CStake _ _ => {| tx_hash := "0xaa03" |}
  | CUnstake _ _ => {| tx_hash := "0xaa04" |}
  | CGetUserStake _ _ => position sc
  | CWait _ => tt
  end.

Definition scripted (sc : Scenario) : Environment :=
  {| W := nat;
     respond := fun w c =>
       (match faults sc w c with
        | Some e => inl e
        | None => inr (answer sc c)
        end, S w);
     formatUnits := ethers_formatUnits;
     ETH_PRIVATE_KEY := Some "0x59c6995e998f97a5a0044966f0945389dc9e86dae88c7a8412f4603b6b78690d";
     wallet_address := "0x70997970C51812dc3A010C7d01b50e0d17dc79C8";
     invalid_key := key_error sc;
     redirected := under_server sc |}.

(** A run in a scenario starts with no call answered yet. *)
Definition start (sc : Scenario) : @St (scripted sc) :=
  @init (scripted sc) 0%nat.

Definition no_fault : nat -> call -> option thrown := fun _ _ => None.

(** Everything resolves; the wallet holds 2 staked, 20 loaned and 20 loan
    tokens, and 1 wrapped SOL. *)
Definition healthy : Scenario :=
  {| faults := no_fault; quoted := 9990000; position := (200000000, 2000000000);
     loan_balance := 2000000000; wsol_balance := 100000000; is_minter := true;
     under_server := false; key_error := None |}.

(** The attestation is not available within the timeout. *)
Definition attestation_timeout : Scenario :=
  {| faults := fun _ c =>
       match c with
       | CFetchAttestation _ => Some (ErrorObj "Error" "Timed out waiting for attestation")
       | _ => None
       end;
     quoted := 9990000; position := (0, 0);
     loan_balance := 0; wsol_balance := 0; is_minter := true;
     under_server := false; key_error := None |}.

(** The source chain rejects the transfer. *)
Definition initiate_fails : Scenario :=
  {| faults := fun _ c =>
       match c with
       | CInitiateTransfer _ => Some (ErrorObj "Error" "insufficient funds for rent")
       | _ => None
       end;
     quoted := 9990000; position := (0, 0);
     loan_balance := 0; wsol_balance := 0; is_minter := true;
     under_server := false; key_error := None |}.

(** [ETH_PRIVATE_KEY] is set to a text that is not a private key. *)
Definition key_not_a_key : Scenario :=
  {| faults := no_fault; quoted := 9990000; position := (200000000, 2000000000);
     loan_balance := 2000000000; wsol_balance := 100000000; is_minter := true;
     under_server := true; key_error := Some "invalid private key" |}.

(** In the server process, everything resolves. *)
Definition healthy_on_server : Scenario :=
  {| faults := no_fault; quoted := 9990000; position := (200000000, 2000000000);
     loan_balance := 2000000000; wsol_balance := 100000000; is_minter := true;
     under_server := true; key_error := None |}.


(** A relayer has redeemed the transfer before the completion call. *)
Definition already_completed : Scenario :=
  {| faults := fun _ c =>
       match c with
       | CCompleteTransfer _ =>
           Some (ErrorObj "Error" "execution reverted: transfer already completed")
       | _ => None
       end;
     quoted := 9990000; position := (0, 0);
     loan_balance := 0; wsol_balance := 100000000; is_minter := true;
     under_server := false; key_error := None |}.

(** The destination chain rejects the completion for another reason. *)
Definition completion_fails : Scenario :=
  {| faults := fun _ c =>
       match c with
       | CCompleteTransfer _ =>
           Some (ErrorObj "Error" "execution reverted: invalid VAA")
       | _ => None
       end;
     quoted := 9990000; position := (0, 0);
     loan_balance := 0; wsol_balance := 0; is_minter := true;
     under_server := false; key_error := None |}.

(** The fee takes the whole amount: the quoted destination amount is 0. *)
Definition fee_equals_amount : Scenario :=
  {| faults := no_fault; quoted := 0; position := (0, 0);
     loan_balance := 0; wsol_balance := 0; is_minter := true;
     under_server := false; key_error := None |}.

(** The fee is larger than the amount. *)
Definition fee_exceeds_amount : Scenario :=
  {| faults := no_fault; quoted := -5000; position := (0, 0);
     loan_balance := 0; wsol_balance := 0; is_minter := true;
     under_server := false; key_error := None |}.

(** A request to the server: the SDK rejects the amount text, every
    ledger call resolves. *)
Definition amount_rejected : Scenario :=
  {| faults := fun _ c =>
       match c with
       | CAmountUnits _ _ => Some (ErrorObj "Error" "Invalid amount")
       | _ => None
       end;
     quoted := 9990000; position := (100000000, 1000000000);
     loan_balance := 1000000000; wsol_balance := 100000000; is_minter := true;
     under_server := true; key_error := None |}.

(** The balance read is rejected every time, each time with another text. *)
Definition rpc_down : Scenario :=
  {| faults := fun w c =>
       match c with
       | CBalanceOf _ _ =>
           Some (ErrorObj "Error" ("request " ++ digits (Z.of_nat w) ++ " timed out"))
       | _ => None
       end;
     quoted := 9990000; position := (0, 0);
     loan_balance := 0; wsol_balance := 0; is_minter := true;
     under_server := false; key_error := None |}.

(** The wallet has spent part of its loan tokens: 5 held, 20 owed. *)
Definition loan_spent : Scenario :=
  {| faults := no_fault; quoted := 9990000; position := (200000000, 2000000000);
     loan_balance := 500000000; wsol_balance := 0; is_minter := true;
     under_server := false; key_error := None |}.

(** A staking position in the contract: 2 staked, 20 loaned, ratio 10. *)
Definition user : Contract.address := 1001.
Definition staking_contract : Contract.address := 2002.

Definition two_staked : Contract.State :=
  {| Contract.this := staking_contract;
     Contract.stakingToken :=
       {| Contract.balanceOf := fun a => if a =? staking_contract then 2 else 0;
          Contract.allowance := fun _ _ => 0;
          Contract.totalSupply := 2 |};
     Contract.loanToken :=
       {| Contract.token :=
            {| Contract.balanceOf := fun a => if a =? user then 20 else 0;
               Contract.allowance := fun _ _ => 0;
               Contract.totalSupply := 20 |};
          Contract.minters := fun a => a =? staking_contract |};
     Contract.loanRatio := 10;
     Contract.stakes := fun a =>
       if a =? user then {| Contract.stakedAmount := 2; Contract.loanedAmount := 20 |}
       else {| Contract.stakedAmount := 0; Contract.loanedAmount := 0 |};
     Contract.totalStaked := 2 |}.

(** The user holds 5 staking tokens, all approved to the contract, and has
    no position yet. *)
Definition funded : Contract.State :=
  {| Contract.this := staking_contract;
     Contract.stakingToken :=
       {| Contract.balanceOf := fun a => if a =? user then 5 else 0;
          Contract.allowance := fun o sp =>
            if (o =? user) && (sp =? staking_contract) then 5 else 0;
          Contract.totalSupply := 5 |};
     Contract.loanToken :=
       {| Contract.token :=
            {| Contract.balanceOf := fun _ => 0;
               Contract.allowance := fun _ _ => 0;
               Contract.totalSupply := 0 |};
          Contract.minters := fun a => a =? staking_contract |};
     Contract.loanRatio := 10;
     Contract.stakes := fun _ =>
       {| Contract.stakedAmount := 0; Contract.loanedAmount := 0 |};
     Contract.totalStaked := 0 |}.

Definition deployer : Contract.address := 3003.

(** The position of [two_staked], with both contracts owned by the deployer. *)
Definition deployed : Admin.System :=
  {| Admin.staking := two_staked;
     Admin.stakingOwner := deployer;
     Admin.loanOwner := deployer |}.

(** Two observers; the connection of the second has gone away. *)
Definition two_observers : LogStream.Server :=
  {| LogStream.clients :=
       [{| LogStream.id := "1700000000000"; LogStream.response := 1%nat |};
        {| LogStream.id := "1700000000001"; LogStream.response := 2%nat |}];
     LogStream.broken := fun r =>
       if Nat.eqb r 2 then Some (ErrorObj "Error" "write after end") else None;
     LogStream.stdout := [];
     LogStream.wire := [] |}.

(** Runs in these scenarios. *)
Definition solana_signer : SignerStuff := answer healthy (CGetSigner Solana).
Definition sepolia_signer : SignerStuff := answer healthy (CGetSigner Sepolia).
Definition native_sol : TokenId := tokenId Solana "native".

Definition timeout_run :=
  executeCrossChainTransfer (env := scripted attestation_timeout) "0.01"
    (start attestation_timeout).

Definition initiate_fails_run :=
  executeCrossChainTransfer (env := scripted initiate_fails) "0.01"
    (start initiate_fails).

Definition key_not_a_key_run :=
  executeUnstake (env := scripted key_not_a_key) (start key_not_a_key).

Definition healthy_on_server_run :=
  executeCrossChainTransfer (env := scripted healthy_on_server) "0.01"
    (start healthy_on_server).


Definition already_completed_run :=
  executeCrossChainTransfer (env := scripted already_completed) "0.01"
    (start already_completed).

Definition completion_fails_run :=
  tokenTransfer (env := scripted completion_fails) native_sol 10000000
    solana_signer sepolia_signer false (start completion_fails).

Definition zero_quote_run :=
  tokenTransfer (env := scripted fee_equals_amount) native_sol 10000000
    solana_signer sepolia_signer true (start fee_equals_amount).

Definition negative_quote_run :=
  tokenTransfer (env := scripted fee_exceeds_amount) native_sol 10000000
    solana_signer sepolia_signer true (start fee_exceeds_amount).

Definition abc_run :=
  cross_chain_stake (env := scripted amount_rejected) (Some "abc")
    (start amount_rejected).

(** A balance read as the call sites make it, with the ledger down. *)
Definition rpc_down_run :=
  retry (env := scripted rpc_down)
    (invoke (CBalanceOf WRAPPED_SOL_ADDRESS (ss_address sepolia_signer)))
    (start rpc_down).

Definition loan_spent_run :=
  executeUnstake (env := scripted loan_spent) (start loan_spent).

Definition staking_run :=
  executeStaking (env := scripted healthy) (ss_address sepolia_signer)
    (start healthy).

Definition unstaking_run :=
  executeUnstake (env := scripted healthy) (start healthy).

(** * Properties *)

(** ** The retry executor *)

Section RetryExecutor.

Context {env : Environment}.

Lemma invoke_effect (c : call) (s s' : St) (r : thrown + resp c) :
  invoke c s = (r, s') ->
  trace s' = (trace s ++ [Ev c r])%list /\
  logs s' = logs s /\ sleeps s' = sleeps s /\
  respond (world s) c = (r, world s').
Proof.
  unfold invoke. destruct (respond (world s) c) as [r0 w'] eqn:E.
  intros H. inversion H; subst. simpl. auto.
Qed.

Lemma invoke_sleeps (c : call) (s : St) :
  sleeps (snd (invoke c s)) = sleeps s.
Proof.
  destruct (invoke c s) as [r s'] eqn:E.
  apply invoke_effect in E. simpl. tauto.
Qed.

Lemma last_cons {A} (a d : A) (l : list A) :
  last (a :: l) d = last l a.
Proof.
  revert a d. induction l as [|b l IH]; intros a d; [reflexivity|].
  change (last (a :: b :: l) d) with (last (b :: l) d).
  now rewrite (IH b d), (IH b a).
Qed.

(** The calls the loop makes: rejected ones, then at most one that
    resolves, which is the value returned. *)
Lemma retry_loop_trace (c : call) (n : nat) :
  forall fuel i delay lastError s r s',
    retry_loop (invoke c) n fuel i delay lastError s = (r, s') ->
    exists errors,
      trace s' = (trace s ++ map (fun e => Ev c (inl e)) errors
                  ++ match r with
                     | inr v => [Ev c (inr v)]
                     | inl _ => []
                     end)%list.
Proof.
  induction fuel as [|fuel IH]; intros i delay lastError s r s' H; simpl in H.
  - inversion H; subst. exists []. simpl. now rewrite app_nil_r.
  - destruct (i <? n)%nat.
    + unfold try_catch in H.
      destruct (invoke c s) as [[e|v] s1] eqn:E; apply invoke_effect in E;
        destruct E as (Et & _).
      * unfold bind, console_log, sleep in H; simpl in H.
        destruct (i <? n - 1)%nat; simpl in H;
          apply IH in H; destruct H as [errors H]; simpl in H;
          exists (e :: errors); rewrite H, Et, <- app_assoc; reflexivity.
      * inversion H; subst. exists []. simpl. exact Et.
    + inversion H; subst. exists []. simpl. now rewrite app_nil_r.
Qed.

Lemma executeWithRetry_trace (c : call) (n : nat) (delay : Q) (s s' : St)
      (r : thrown + resp c) :
  executeWithRetry (invoke c) n delay s = (r, s') ->
  exists errors,
    trace s' = (trace s ++ map (fun e => Ev c (inl e)) errors
                ++ match r with
                   | inr v => [Ev c (inr v)]
                   | inl _ => []
                   end)%list.
Proof. apply retry_loop_trace. Qed.

(** When the call is rejected whatever the state of the world, the loop
    runs out: one call per iteration left, and the last error is thrown. *)
Lemma retry_loop_exhausts (c : call) (n : nat) :
  (forall w, exists e, fst (respond w c) = inl e) ->
  forall fuel i delay lastError s,
    (i + fuel = n)%nat ->
    exists errors s',
      retry_loop (invoke c) n fuel i delay lastError s
      = (inl (last errors lastError), s') /\
      List.length errors = fuel /\
      trace s' = (trace s ++ map (fun e => Ev c (inl e)) errors)%list.
Proof.
  intros Hfail.
  induction fuel as [|fuel IH]; intros i delay lastError s Hi; simpl.
  - exists [], s. simpl. now rewrite app_nil_r.
  - assert (Hlt : (i <? n)%nat = true) by (apply Nat.ltb_lt; lia).
    rewrite Hlt. unfold try_catch.
    destruct (invoke c s) as [[e|v] s1] eqn:E; apply invoke_effect in E;
      destruct E as (Et & _ & _ & Er).
    + unfold bind, console_log, sleep; simpl.
      destruct (i <? n - 1)%nat; simpl;
        match goal with
        | |- context [retry_loop _ _ _ _ ?d _ ?st] =>
            destruct (IH (S i) d e st ltac:(lia)) as (errors & s' & H1 & H2 & H3)
        end;
        exists (e :: errors), s'; rewrite H1, last_cons; simpl in *;
        (split; [reflexivity | split; [now rewrite H2 |]]);
        rewrite H3, Et, <- app_assoc; reflexivity.
    + destruct (Hfail (world s)) as [e He]. rewrite Er in He. discriminate.
Qed.

(** Past the last iteration the loop throws what it holds. *)
Lemma retry_loop_done {A} (fn : M A) (n fuel i : nat) (delay : Q)
      (lastError : thrown) (s : St) :
  (n <= i)%nat ->
  retry_loop fn n fuel i delay lastError s = (inl lastError, s).
Proof.
  intros Hi. destruct fuel as [|fuel]; simpl; [reflexivity|].
  assert (H : (i <? n)%nat = false) by (apply Nat.ltb_ge; lia).
  now rewrite H.
Qed.

(** The waits of the loop are the first [k] backoff delays, for a [k]
    below the number of attempts, when the operation itself does not
    wait. *)
Lemma retry_loop_sleeps {A} (fn : M A) (n : nat) :
  (forall s, sleeps (snd (fn s)) = sleeps s) ->
  forall fuel i delay lastError s,
    exists k, (k <= n - 1 - i)%nat /\
      sleeps (snd (retry_loop fn n fuel i delay lastError s))
      = (sleeps s ++ backoff delay k)%list.
Proof.
  intros Hfn.
  induction fuel as [|fuel IH]; intros i delay lastError s; simpl.
  - exists 0%nat. simpl. split; [lia | now rewrite app_nil_r].
  - destruct (i <? n)%nat eqn:Hlt.
    + unfold try_catch. specialize (Hfn s).
      destruct (fn s) as [[e|v] s1]; simpl in Hfn.
      * unfold bind, console_log, sleep; simpl.
        destruct (i <? n - 1)%nat eqn:Hlast; simpl.
        -- match goal with
           | |- context [retry_loop _ _ _ _ ?d _ ?st] =>
               destruct (IH (S i) d e st) as (k & Hk & Hs)
           end.
           apply Nat.ltb_lt in Hlast.
           exists (S k). split; [lia|].
           rewrite Hs. simpl. rewrite Hfn, <- app_assoc. reflexivity.
        -- apply Nat.ltb_ge in Hlast. apply Nat.ltb_lt in Hlt.
           rewrite retry_loop_done by lia.
           exists 0%nat. simpl. split; [lia | now rewrite Hfn, app_nil_r].
      * exists 0%nat. simpl. split; [lia | now rewrite Hfn, app_nil_r].
    + exists 0%nat. simpl. split; [lia | now rewrite app_nil_r].
Qed.

Lemma next_delay_bounds (d : Q) :
  (0 <= d)%Q -> (d <= 15000 # 1)%Q ->
  (d <= next_delay d)%Q /\ (0 <= next_delay d)%Q /\ (next_delay d <= 15000 # 1)%Q.
Proof.
  intros H0 Hmax. unfold next_delay.
  assert (Hmul : (d <= d * (3 # 2))%Q).
  { lra. }
  split; [|split].
  - apply Q.min_glb; assumption.
  - apply Q.min_glb; [eapply Qle_trans; eassumption | discriminate].
  - apply Q.le_min_r.
Qed.

Lemma backoff_bounded (k : nat) :
  forall d, (0 <= d)%Q -> (d <= 15000 # 1)%Q ->
    Forall (fun x => (x <= 15000 # 1)%Q) (backoff d k).
Proof.
  induction k as [|k IH]; intros d H0 Hmax; simpl; constructor.
  - exact Hmax.
  - destruct (next_delay_bounds d H0 Hmax) as (_ & H1 & H2). now apply IH.
Qed.

Lemma backoff_non_decreasing (k : nat) :
  forall d, (0 <= d)%Q -> (d <= 15000 # 1)%Q -> non_decreasing (backoff d k).
Proof.
  induction k as [|k IH]; intros d H0 Hmax; [exact I|].
  destruct (next_delay_bounds d H0 Hmax) as (Hle & H1 & H2).
  specialize (IH (next_delay d) H1 H2).
  destruct k as [|k]; [exact I|].
  change (backoff d (S (S k)))
    with (d :: next_delay d :: backoff (next_delay (next_delay d)) k).
  change (backoff (next_delay d) (S k))
    with (next_delay d :: backoff (next_delay (next_delay d)) k) in IH.
  split; assumption.
Qed.

Lemma retry_effect (c : call) (s s' : St) (r : thrown + resp c) :
  retry (invoke c) s = (r, s') ->
  exists errors,
    trace s' = (trace s ++ map (fun e => Ev c (inl e)) errors
                ++ match r with
                   | inr v => [Ev c (inr v)]
                   | inl _ => []
                   end)%list.
Proof. apply executeWithRetry_trace. Qed.

(** C2. For every [maxRetries = n >= 1], [executeWithRetry] on an operation
    that is rejected on every attempt calls it exactly [n] times and then
    fails with the error of the last of these attempts. *)
Theorem executeWithRetry_exhausted (c : call) (n : nat) (delay : Q) (s : St) :
  (1 <= n)%nat ->
  (forall w, exists e, fst (respond w c) = inl e) ->
  exists earlier lastError s',
    executeWithRetry (invoke c) n delay s = (inl lastError, s') /\
    S (List.length earlier) = n /\
    trace s' = (trace s ++ map (fun e => Ev c (inl e)) (earlier ++ [lastError]))%list.
Proof.
  intros Hn Hfail.
  destruct (retry_loop_exhausts c n Hfail n 0%nat delay Undefined s eq_refl)
    as (errors & s' & Hrun & Hlen & Htrace).
  destruct (exists_last (l := errors)) as (earlier & lastError & ->).
  { intros ->. simpl in Hlen. lia. }
  exists earlier, lastError, s'.
  rewrite last_last in Hrun. rewrite length_app in Hlen. simpl in Hlen.
  repeat split; [exact Hrun | lia | exact Htrace].
Qed.

(** The waits of the default policy, as long as they are not capped. *)
Lemma default_backoff_values (k : nat) :
  (k <= 4)%nat ->
  Forall2 Qeq (backoff (3000 # 1) k)
          (firstn k [3000 # 1; 4500 # 1; 6750 # 1; 10125 # 1]).
Proof.
  intros Hk.
  do 5 (destruct k as [|k]; [repeat constructor|]). lia.
Qed.

(** C6.  The executor is not exported and every call site runs it on one
    remote call with the default policy: five attempts, a first delay of
    3000 ms.  In every such run the waits between the attempts start at
    3000, each next one is the previous times 1.5 capped at 15000 (they are
    the first of 3000, 4500, 6750, 10125), the sequence is non-decreasing
    and every wait is at most 15000. *)
Theorem backoff_delays (c : call) (s : St) :
  exists k, (k <= 4)%nat /\
    sleeps (snd (retry (invoke c) s))
    = (sleeps s ++ backoff (3000 # 1) k)%list /\
    Forall2 Qeq (backoff (3000 # 1) k)
            (firstn k [3000 # 1; 4500 # 1; 6750 # 1; 10125 # 1]) /\
    non_decreasing (backoff (3000 # 1) k) /\
    Forall (fun d => (d <= 15000 # 1)%Q) (backoff (3000 # 1) k).
Proof.
  destruct (retry_loop_sleeps (invoke c) 5 (invoke_sleeps c) 5%nat 0%nat
              (3000 # 1) Undefined s) as (k & Hk & Hs).
  simpl in Hk.
  exists k. split; [exact Hk|]. split; [exact Hs|].
  split; [now apply default_backoff_values|].
  split.
  - apply backoff_non_decreasing; unfold Qle; simpl; lia.
  - apply backoff_bounded; unfold Qle; simpl; lia.
Qed.

End RetryExecutor.

Lemma executeWithRetry_exhausted_witness :
  exists earlier lastError s',
    executeWithRetry (env := scripted rpc_down)
      (invoke (CBalanceOf WRAPPED_SOL_ADDRESS "0x70997970C51812dc3A010C7d01b50e0d17dc79C8"))
      5 (3000 # 1) (start rpc_down)
    = (inl lastError, s') /\
    S (List.length earlier) = 5%nat /\
    trace s'
    = (trace (start rpc_down)
       ++ map (fun e => Ev (CBalanceOf WRAPPED_SOL_ADDRESS
                              "0x70997970C51812dc3A010C7d01b50e0d17dc79C8") (inl e))
              (earlier ++ [lastError]))%list.
Proof.
  apply (executeWithRetry_exhausted (env := scripted rpc_down)).
  - lia.
  - intros w. eexists. reflexivity.
Defined.

(** With the ledger down, the five attempts of a balance read wait four
    times, for 3000, 4500, 6750 and 10125 ms. *)
Example rpc_down_backoff :
  Forall2 Qeq (sleeps (snd rpc_down_run))
    [3000 # 1; 4500 # 1; 6750 # 1; 10125 # 1] /\
  List.length (trace (snd rpc_down_run)) = 5%nat.
Proof.
  assert (H : sleeps (snd rpc_down_run) = backoff (3000 # 1) 4)
    by (vm_compute; reflexivity).
  rewrite H. split; [repeat constructor | vm_compute; reflexivity].
Qed.

(** The five attempts of the default policy wait 3000, 4500, 6750 and
    10125 ms; a sixth attempt would wait the cap. *)
Example default_backoff :
  Forall2 Qeq (backoff (3000 # 1) 5)
    [3000 # 1; 4500 # 1; 6750 # 1; 10125 # 1; 15000 # 1].
Proof. repeat constructor. Qed.

(** ** The transfer pipeline *)

Arguments retry : simpl never.

(** One step of the computation in [H]: decides a test, or runs the next
    remote call, naming its outcome and what it adds to the trace. *)
Ltac step H :=
  unfold bind, try_catch, console_log, console_error, sleep, ret, throw,
    toString, message_of, new_wallet in H;
  simpl in H;
  first
    [ match type of H with
      | context [if ?b then _ else _] =>
          let Hb := fresh "Hb" in destruct b eqn:Hb
      end
    | match type of H with
      | context [match @invalid_key ?en with Some _ => _ | None => _ end] =>
          let Hk := fresh "Hk" in destruct (@invalid_key en) eqn:Hk
      end
    | match type of H with
      | context [match ?x with Undefined => _ | _ => _ end] => destruct x
      end
    | match type of H with
      | context [match ?p with (_, _) => _ end] => is_var p; destruct p
      end
    | match type of H with
      | context [@retry ?en ?A (invoke ?c) ?st] =>
          let s1 := fresh "s" in
          let E := fresh "E" in
          let Ht := fresh "Ht" in
          let errors := fresh "errors" in
          destruct (@retry en A (invoke c) st) as [[?e|?v] s1] eqn:E;
          apply (retry_effect c) in E; simpl in E; destruct E as (errors & Ht)
      end
    | match type of H with
      | context [invoke ?c ?st] =>
          let s1 := fresh "s" in
          let E := fresh "E" in
          let Ht := fresh "Ht" in
          let Hl := fresh "Hl" in
          destruct (invoke c st) as [[?e|?v] s1] eqn:E;
          apply invoke_effect in E; simpl in E; destruct E as (Ht & Hl & _ & _)
      end ].

(** Ends a run: the final state and result are known, the trace is spelled
    out from the equations collected by [step]. *)
Ltac finish H :=
  unfold bind, try_catch, console_log, console_error, sleep, ret, throw in H;
  simpl in H; inversion H; subst; clear H; simpl in *;
  repeat match goal with
         | Ht : trace ?s = _ |- _ => rewrite Ht in *; clear Ht
         | Hl : logs ?s = _ |- _ => rewrite Hl in *; clear Hl
         end;
  simpl in *.

(** Uses what a run found out about the console. *)
Ltac console_known :=
  repeat match goal with
         | Hr : redirected = _ |- _ => rewrite ?Hr in *; clear Hr
         end;
  simpl in *.

(** Splits a membership in a spelled-out list into its cases. *)
Ltac cases_of_In :=
  repeat match goal with
         | Hin : _ \/ _ |- _ => destruct Hin as [Hin|Hin]
         | Hin : False |- _ => destruct Hin
         | Hin : (_, _) = (_, _) |- _ => inversion Hin; subst; clear Hin
         end.

(** Membership in a spelled-out list. *)
Ltac find_In := simpl; repeat (try (left; reflexivity); right).

Section Transfer.

Context {env : Environment}.


(** C5. When the completion call is rejected with an error whose text has
    "transfer already completed", two informational lines are logged,
    nothing is thrown and [executeCrossChainTransfer] returns the signers'
    addresses, the requested amount and the first source transaction id;
    a completion error without that text is thrown again by
    [tokenTransfer]. *)
Theorem already_completed_is_success (amt : string) (w : W) :
  (forall r s' signer e,
      executeCrossChainTransfer amt (init w) = (r, s') ->
      In (CCompleteTransfer signer, e) (failures (trace s')) ->
      includes "transfer already completed" (String_of e) = true ->
      exists source destination txids,
        first (read_signer Solana) (trace s') = Some source /\
        first (read_signer Sepolia) (trace s') = Some destination /\
        first read_initiate (trace s') = Some txids /\
        r = inr {| sourceAddress := ss_address source;
                   destinationAddress := ss_address destination;
                   amount := amt;
                   wormholeHash := nth_error txids 0 |} /\
        In (Out, [PStr "Transfer has already been completed, possibly automatically by a relayer or successfully completed previously"])
           (logs s') /\
        In (Out, [PStr "This is not an error, your assets should have reached the destination chain"])
           (logs s')) /\
  (forall token units source destination automatic r s' signer e,
      tokenTransfer token units source destination automatic (init w) = (r, s') ->
      In (CCompleteTransfer signer, e) (failures (trace s')) ->
      e <> Undefined ->
      includes "transfer already completed" (String_of e) = false ->
      r = inl e).
Proof.
  split.
  - intros r s' signer e H Hin Hinc.
    unfold executeCrossChainTransfer, tokenTransfer in H.
    repeat step H; finish H; cases_of_In; try discriminate; simpl in Hinc;
      try congruence.
    all: do 3 eexists; repeat split; try reflexivity; find_In.
  - intros token units source destination automatic r s' signer e H Hin Hne Hinc.
    unfold tokenTransfer in H.
    repeat step H; finish H; cases_of_In; try discriminate; simpl in Hinc;
      congruence.
Qed.

(** C3, as the code has it.  With the transfer object carrying the flag
    it was requested with: when automatic completion was requested and the
    quoted destination amount is negative, [tokenTransfer] throws the fee
    error with nothing submitted after the quote (no initiate, no
    completion); when it was not requested, or the quoted amount is 0 or
    more, the check does not fire and the transfer is initiated. *)
Theorem fee_check_negative_quote
        (token : TokenId) (units : Z) (source destination : SignerStuff)
        (automatic : bool) (w : W) (r : thrown + list string) (s' : St)
        (xfer : Xfer) (quote : Quote) :
  tokenTransfer token units source destination automatic (init w) = (r, s') ->
  first read_xfer (trace s') = Some xfer ->
  transfer_automatic xfer = automatic ->
  first read_quote (trace s') = Some quote ->
  (automatic = true -> destinationToken_amount quote < 0 ->
   r = inl fee_error /\
   calls (trace s')
   = [CTokenTransfer token units (ss_address source) (ss_address destination) automatic;
      CQuoteTransfer (ss_chain source) (ss_chain destination)]) /\
  (automatic = false \/ 0 <= destinationToken_amount quote ->
   nth_error (calls (trace s')) 2 = Some (CInitiateTransfer (ss_signer source))).
Proof.
  intros H Hx Hauto Hq.
  unfold tokenTransfer in H.
  repeat step H; finish H; try discriminate.
  all: inversion Hx; inversion Hq; subst; clear Hx Hq.
  all: split; [intros Ha Hneg | intros Hor].
  all: try (split; reflexivity).
  all: try reflexivity.
  all: try (apply Z.ltb_lt in Hneg; rewrite Ha, Hneg in Hb; discriminate).
  all: apply andb_prop in Hb; destruct Hb as [Ha Hneg];
    apply Z.ltb_lt in Hneg; destruct Hor; [congruence | lia].
Qed.

End Transfer.



(** In the server process a transfer in which every call resolves stops at
    the line that logs the attestation ids, which hold a bigint: the
    completion call is not made, and the result has the empty string as
    [wormholeHash] although no call was rejected. *)
Example attestation_log_stops_the_transfer_on_server :
  failures (trace (snd healthy_on_server_run)) = [] /\
  calls (trace (snd healthy_on_server_run))
  = [CWormhole; CGetSigner Solana; CGetSigner Sepolia;
     CGetTokenDecimals native_sol Solana; CAmountUnits "0.01" 9;
     CTokenTransfer native_sol 10000000 (ss_address solana_signer)
       (ss_address sepolia_signer) false;
     CQuoteTransfer Solana Sepolia;
     CInitiateTransfer "solana-signer";
     CFetchAttestation 60000] /\
  fst healthy_on_server_run
  = inr {| sourceAddress := ss_address solana_signer;
           destinationAddress := ss_address sepolia_signer;
           amount := "0.01";
           wormholeHash := Some "" |}.
Proof.
  split; [vm_compute; reflexivity|].
  split; vm_compute; reflexivity.
Qed.

Lemma already_completed_is_success_witness :
  (exists source destination txids,
      first (read_signer Solana) (trace (snd already_completed_run)) = Some source /\
      first (read_signer Sepolia) (trace (snd already_completed_run)) = Some destination /\
      first read_initiate (trace (snd already_completed_run)) = Some txids /\
      fst already_completed_run
      = inr {| sourceAddress := ss_address source;
               destinationAddress := ss_address destination;
               amount := "0.01";
               wormholeHash := nth_error txids 0 |} /\
      In (Out, [PStr "Transfer has already been completed, possibly automatically by a relayer or successfully completed previously"])
         (logs (snd already_completed_run)) /\
      In (Out, [PStr "This is not an error, your assets should have reached the destination chain"])
         (logs (snd already_completed_run))) /\
  fst completion_fails_run
  = inl (ErrorObj "Error" "execution reverted: invalid VAA").
Proof.
  split.
  - destruct (already_completed_is_success (env := scripted already_completed)
                "0.01" 0%nat) as [Hsuccess _].
    apply (Hsuccess (fst already_completed_run) (snd already_completed_run)
             "sepolia-signer"
             (ErrorObj "Error" "execution reverted: transfer already completed")).
    + exact (surjective_pairing _).
    + vm_compute. left. reflexivity.
    + vm_compute. reflexivity.
  - destruct (already_completed_is_success (env := scripted completion_fails)
                "0.01" 0%nat) as [_ Hraised].
    apply (Hraised native_sol 10000000 solana_signer sepolia_signer false
             (fst completion_fails_run) (snd completion_fails_run)
             "sepolia-signer").
    + exact (surjective_pairing _).
    + vm_compute. left. reflexivity.
    + discriminate.
    + vm_compute. reflexivity.
Defined.

Lemma fee_check_negative_quote_witness :
  fst negative_quote_run = inl fee_error /\
  calls (trace (snd negative_quote_run))
  = [CTokenTransfer native_sol 10000000 (ss_address solana_signer)
       (ss_address sepolia_signer) true;
     CQuoteTransfer Solana Sepolia].
Proof.
  destruct (fee_check_negative_quote (env := scripted fee_exceeds_amount)
              native_sol 10000000 solana_signer sepolia_signer true 0%nat
              (fst negative_quote_run) (snd negative_quote_run)
              {| transfer_automatic := true |}
              {| destinationToken_amount := -5000 |}) as [Hfires _].
  - exact (surjective_pairing _).
  - vm_compute. reflexivity.
  - reflexivity.
  - vm_compute. reflexivity.
  - apply Hfires; [reflexivity | simpl; lia].
Defined.

(** The claim C3 at a quoted destination amount of 0, with automatic
    completion requested: the amount is not positive, the fee error is not
    thrown, and the transfer runs up to the completion call. *)
Lemma fee_check_skips_zero_quote :
  first read_xfer (trace (snd zero_quote_run)) = Some {| transfer_automatic := true |} /\
  first read_quote (trace (snd zero_quote_run)) = Some {| destinationToken_amount := 0 |} /\
  fst zero_quote_run <> inl fee_error /\
  fst zero_quote_run = inr ["5VERv8NMvzbJMEkV"; "3JbR6kdvZpYc"] /\
  In (CCompleteTransfer "sepolia-signer") (calls (trace (snd zero_quote_run))).
Proof.
  split; [vm_compute; reflexivity|].
  split; [vm_compute; reflexivity|].
  split; [vm_compute; discriminate|].
  split; [vm_compute; reflexivity|].
  vm_compute. repeat (try (left; reflexivity); right).
Qed.

(** C1, on the code.  An attestation timeout and an initiate failure are
    not surfaced: [executeCrossChainTransfer] returns a result, with the
    empty string as [wormholeHash], although the call was rejected. *)
Theorem transfer_failures_not_surfaced :
  fst timeout_run
  = inr {| sourceAddress := ss_address solana_signer;
           destinationAddress := ss_address sepolia_signer;
           amount := "0.01";
           wormholeHash := Some "" |} /\
  failures (trace (snd timeout_run))
  = [(CFetchAttestation 60000,
      ErrorObj "Error" "Timed out waiting for attestation")] /\
  fst initiate_fails_run
  = inr {| sourceAddress := ss_address solana_signer;
           destinationAddress := ss_address sepolia_signer;
           amount := "0.01";
           wormholeHash := Some "" |} /\
  failures (trace (snd initiate_fails_run))
  = [(CInitiateTransfer "solana-signer",
      ErrorObj "Error" "insufficient funds for rent")].
Proof.
  split; [vm_compute; reflexivity|].
  split; [vm_compute; reflexivity|].
  split; vm_compute; reflexivity.
Qed.

(** ** Staking and unstaking *)

Lemma first_app {A} (f : event -> option A) (a b : list event) :
  first f (a ++ b) = match first f a with
                     | Some x => Some x
                     | None => first f b
                     end.
Proof.
  induction a as [|e a IH]; simpl; [reflexivity|].
  destruct (f e); [reflexivity | exact IH].
Qed.

(** A reading that only looks at resolved calls finds nothing among
    rejected ones. *)
Lemma first_rejected {A} (f : event -> option A) (c : call) (errors : list thrown) :
  (forall e, f (Ev c (inl e)) = None) ->
  first f (map (fun e => Ev c (inl e)) errors) = None.
Proof.
  intros Hf. induction errors as [|e errors IH]; simpl; [reflexivity|].
  now rewrite Hf.
Qed.

Lemma read_stake_rejected (c : call) (errors : list thrown) :
  first read_stake (map (fun e => Ev c (inl e)) errors) = None.
Proof. apply first_rejected. intros e. destruct c; reflexivity. Qed.

Lemma read_balance_rejected (token : string) (c : call) (errors : list thrown) :
  first (read_balance token) (map (fun e => Ev c (inl e)) errors) = None.
Proof. apply first_rejected. intros e. destruct c; reflexivity. Qed.

(** Rejected calls of one kind all fail a test that the kind fails. *)
Lemma Forall_rejected (P : event -> Prop) (c : call) (errors : list thrown) :
  (forall e, P (Ev c (inl e))) ->
  Forall P (map (fun e => Ev c (inl e)) errors).
Proof.
  intros HP. apply Forall_forall. intros x Hx.
  apply in_map_iff in Hx. destruct Hx as (e & <- & _). apply HP.
Qed.

Lemma ends_after_retry (a b : list event) (x : event) :
  exists earlier, (a ++ b ++ [x] = earlier ++ [x])%list.
Proof. exists (a ++ b)%list. apply app_assoc. Qed.

(** *** Ordering of the approval and the dependent call *)

Lemma approval_confirmed_app (a b : list event) :
  approval_confirmed a -> approval_confirmed (a ++ b).
Proof.
  intros (token & amount & tx & before & between & after & ->).
  exists token, amount, tx, before, between, (after ++ b)%list.
  rewrite <- app_assoc. simpl. rewrite <- app_assoc. reflexivity.
Qed.

Lemma approval_confirmed_intro (pre f1 f2 : list event)
      (token : string) (amount : Z) (tx : Tx) :
  approval_confirmed
    ((pre ++ f1 ++ [Ev (CApprove token STAKING_CONTRACT_ADDRESS amount) (inr tx)])
     ++ f2 ++ [Ev (CWait tx) (inr tt)]).
Proof.
  exists token, amount, tx, (pre ++ f1)%list, f2, [].
  rewrite <- !app_assoc. reflexivity.
Qed.

Lemma approved_first_none (dependent : call -> bool) (tr : list event) :
  Forall (fun ev => dependent (call_of ev) = false) tr ->
  approved_first dependent tr.
Proof.
  intros Hnone before c outcome after -> Hdep.
  apply Forall_app in Hnone. destruct Hnone as [_ Hnone].
  inversion Hnone; subst. simpl in *. congruence.
Qed.

Lemma approved_first_after (dependent : call -> bool) (a b : list event) :
  Forall (fun ev => dependent (call_of ev) = false) a ->
  approval_confirmed a ->
  approved_first dependent (a ++ b).
Proof.
  intros Hnone Hconfirmed before c outcome after Heq Hdep.
  apply app_eq_app in Heq. destruct Heq as (l & [[-> Hl] | [-> Hl]]).
  - destruct l as [|x l].
    + now rewrite app_nil_r in Hconfirmed.
    + simpl in Hl. inversion Hl; subst.
      apply Forall_app in Hnone. destruct Hnone as [_ Hnone].
      inversion Hnone; subst. simpl in *. congruence.
  - now apply approval_confirmed_app.
Qed.

Lemma approved_first_app_r (dependent : call -> bool) (a b : list event) :
  approved_first dependent a ->
  Forall (fun ev => dependent (call_of ev) = false) b ->
  approved_first dependent (a ++ b).
Proof.
  intros Ha Hnone before c outcome after Heq Hdep.
  apply app_eq_app in Heq. destruct Heq as (l & [[-> Hl] | [-> Hl]]).
  - destruct l as [|x l].
    + simpl in Hl. subst b. inversion Hnone; subst. simpl in *. congruence.
    + simpl in Hl. inversion Hl; subst.
      eapply Ha; [reflexivity | exact Hdep].
  - rewrite Hl in Hnone. apply Forall_app in Hnone. destruct Hnone as [_ Hnone].
    inversion Hnone; subst. simpl in *. congruence.
Qed.

(** No call of the trace in the goal is of the dependent kind. *)
Ltac none_dependent :=
  rewrite ?Forall_app; repeat split;
  try (apply Forall_rejected; intros; reflexivity);
  repeat constructor.

(** The trace in the goal, spelled out by [finish], keeps the order. *)
Ltac ordered :=
  repeat match goal with u : unit |- _ => destruct u end;
  first
    [ apply approved_first_none; solve [none_dependent]
    | repeat (apply approved_first_app_r; [|solve [none_dependent]]);
      apply approved_first_after;
      [solve [none_dependent] | apply approval_confirmed_intro] ].

Section Staking.

Context {env : Environment}.

(** C7. In [executeUnstake], when the loan-token balance read is below the
    [loanedAmount] read, the operation throws the insufficient-balance
    error right after that read: the read is the last call of the run, and
    no approve and no unstake call was made. *)
Theorem unstake_insufficient_loan_balance
        (w : W) (r : thrown + option UnstakeResult) (s' : St)
        (staked loaned loanBalance : Z) :
  executeUnstake (init w) = (r, s') ->
  first read_stake (trace s') = Some (staked, loaned) ->
  first (read_balance LOAN_TOKEN_ADDRESS) (trace s') = Some loanBalance ->
  loanBalance < loaned ->
  r = inl (insufficient_loan_balance loaned loanBalance) /\
  Forall (fun ev => is_approve (call_of ev) = false /\
                    is_unstake (call_of ev) = false) (trace s') /\
  exists earlier,
    trace s' = (earlier ++ [Ev (CBalanceOf LOAN_TOKEN_ADDRESS wallet_address)
                               (inr loanBalance)])%list.
Proof.
  intros H Hstake Hbalance Hlt.
  unfold executeUnstake in H.
  repeat step H; finish H;
    rewrite ?first_app, ?read_stake_rejected, ?read_balance_rejected in Hstake;
    simpl in Hstake; try discriminate;
    rewrite ?first_app, ?read_stake_rejected, ?read_balance_rejected in Hbalance;
    simpl in Hbalance; try discriminate;
    inversion Hstake; inversion Hbalance; subst; clear Hstake Hbalance.
  2-8: apply Z.ltb_ge in Hb1; lia.
  split; [reflexivity | split].
  - rewrite !Forall_app. repeat split;
      try (apply Forall_rejected; intros; simpl; auto);
      repeat constructor.
  - apply ends_after_retry.
Qed.

(** C8. In [executeStaking] and in [executeUnstake], every stake
    (resp. unstake) call is made after an approve call has resolved to a
    transaction and a [wait()] on that transaction has resolved. *)
Theorem approval_confirmed_before_dependent_call (userAddress : string) (w : W) :
  approved_first is_stake (trace (snd (executeStaking userAddress (init w)))) /\
  approved_first is_unstake (trace (snd (executeUnstake (init w)))).
Proof.
  split.
  - destruct (executeStaking userAddress (init w)) as [r s'] eqn:H.
    unfold executeStaking in H.
    repeat step H; finish H; ordered.
  - destruct (executeUnstake (init w)) as [r s'] eqn:H.
    unfold executeUnstake in H.
    repeat step H; finish H; ordered.
Qed.

End Staking.

Lemma unstake_insufficient_loan_balance_witness :
  fst loan_spent_run
  = inl (insufficient_loan_balance (env := scripted loan_spent) 2000000000 500000000) /\
  Forall (fun ev => is_approve (call_of ev) = false /\
                    is_unstake (call_of ev) = false)
         (trace (snd loan_spent_run)) /\
  exists earlier,
    trace (snd loan_spent_run)
    = (earlier ++ [Ev (CBalanceOf LOAN_TOKEN_ADDRESS
                         (wallet_address (Environment := scripted loan_spent)))
                      (inr 500000000)])%list.
Proof.
  apply (unstake_insufficient_loan_balance (env := scripted loan_spent)
           0%nat (fst loan_spent_run) (snd loan_spent_run)
           200000000 2000000000 500000000).
  - exact (surjective_pairing _).
  - vm_compute. reflexivity.
  - vm_compute. reflexivity.
  - lia.
Defined.

(** With a key that is not a private key the operation throws where it
    builds the wallet: no call is made, and the error is logged and thrown
    again. *)
Example invalid_key_stops_before_any_call :
  fst key_not_a_key_run = inl (ErrorObj "TypeError" "invalid private key") /\
  trace (snd key_not_a_key_run) = [] /\
  logs (snd key_not_a_key_run)
  = [(Out, [PStr "Starting unstaking operation..."]);
     (Err, [PStr "Unstaking operation failed:";
            PThrown (ErrorObj "TypeError" "invalid private key")])].
Proof.
  split; [vm_compute; reflexivity|].
  split; vm_compute; reflexivity.
Qed.

(** In the healthy scenario both operations reach their dependent call. *)
Example dependent_calls_reached :
  calls (trace (snd staking_run))
  = [CMinters LOAN_TOKEN_ADDRESS STAKING_CONTRACT_ADDRESS;
     CBalanceOf WRAPPED_SOL_ADDRESS (ss_address sepolia_signer);
     CDecimals WRAPPED_SOL_ADDRESS;
     CApprove WRAPPED_SOL_ADDRESS STAKING_CONTRACT_ADDRESS 100000000;
     CWait {| tx_hash := "0xaa02" |};
     CStake STAKING_CONTRACT_ADDRESS 100000000;
     CWait {| tx_hash := "0xaa03" |};
     CGetUserStake STAKING_CONTRACT_ADDRESS (ss_address sepolia_signer)] /\
  In (CUnstake STAKING_CONTRACT_ADDRESS 200000000)
     (calls (trace (snd unstaking_run))).
Proof.
  split; [vm_compute; reflexivity|].
  vm_compute. repeat (try (left; reflexivity); right).
Qed.

(** ** The request handler *)

Arguments executeCrossChainTransfer : simpl never.
Arguments executeStaking : simpl never.

Lemma hd_error_calls_app (a b : list event) (c : call) :
  hd_error (calls a) = Some c -> hd_error (calls (a ++ b)) = Some c.
Proof. destruct a; [discriminate | exact (fun H => H)]. Qed.

Section Handler.

Context {env : Environment}.

(** The transfer begins with the call that connects to the bridge. *)
Lemma transfer_first_call (amt : string) (w : W)
      (r : thrown + TransferResult) (s' : St) :
  executeCrossChainTransfer amt (init w) = (r, s') ->
  hd_error (calls (trace s')) = Some CWormhole.
Proof.
  intros H. unfold executeCrossChainTransfer, tokenTransfer in H.
  repeat step H; finish H; reflexivity.
Qed.

(** Staking only adds to the trace. *)
Lemma staking_extends (userAddress : string) (s : St)
      (r : thrown + option StakePosition) (s' : St) :
  executeStaking userAddress s = (r, s') ->
  exists tr, trace s' = (trace s ++ tr)%list.
Proof.
  intros H. unfold executeStaking in H.
  repeat step H; finish H; rewrite <- ?app_assoc;
    try (eexists; reflexivity).
  all: exists []; now rewrite app_nil_r.
Qed.

(** C4, on the code.  The amount "abc" is not a decimal number, yet in
    every environment the handler does not answer 400 and starts the
    transfer: the first call of the bridge is made.  Where the SDK then
    rejects the text and the ledger calls resolve, the reply is 200 with
    amount "abc". *)
Theorem non_numeric_amount_not_rejected (w : W) :
  parseFloat "abc" = NaN /\
  (forall text,
      fst (cross_chain_stake (Some "abc") (init w)) <> inr (Status400 text)) /\
  hd_error (calls (trace (snd (cross_chain_stake (Some "abc") (init w)))))
  = Some CWormhole /\
  fst abc_run
  = inr (Status200 "Cross-chain staking operation completed successfully"
           {| sourceAddress := ss_address solana_signer;
              destinationAddress := ss_address sepolia_signer;
              amount := "abc";
              wormholeHash := Some "" |}
           (Some {| stakedAmount := "1.0"; loanedAmount := "0.000000001" |})).
Proof.
  split; [reflexivity|].
  assert (Hgeneral :
            (forall text,
                fst (cross_chain_stake (Some "abc") (init w))
                <> inr (Status400 text)) /\
            hd_error (calls (trace (snd (cross_chain_stake (Some "abc") (init w)))))
            = Some CWormhole).
  { unfold cross_chain_stake, try_catch, bind. simpl.
    destruct (executeCrossChainTransfer "abc" (init w)) as [[e|result] s1] eqn:Ht;
      apply transfer_first_call in Ht.
    - unfold console_error, message_of, ret, throw. simpl.
      destruct e; simpl; (split; [intros text; discriminate | exact Ht]).
    - unfold console_log, sleep. simpl.
      match goal with
      | |- context [executeStaking ?u ?st] =>
          destruct (executeStaking u st) as [[e|position] s2] eqn:Hs;
          apply staking_extends in Hs; destruct Hs as (tr & Hs); simpl in Hs
      end.
      + unfold console_error, message_of, ret, throw. simpl.
        destruct e; simpl; rewrite Hs;
          (split; [intros text; discriminate | now apply hd_error_calls_app]).
      + unfold ret. simpl. rewrite Hs.
        split; [intros text; discriminate | now apply hd_error_calls_app]. }
  destruct Hgeneral as [H400 Hfirst].
  split; [exact H400|]. split; [exact Hfirst|].
  vm_compute. reflexivity.
Qed.

End Handler.

(** ** The staking contract *)

Section StakingContract.

Import Contract.

(** Decides the tests of a contract call that went through. *)
Ltac passed H :=
  repeat match type of H with
         | context [if ?b then _ else _] =>
             let Hb := fresh "Hb" in
             destruct b eqn:Hb; simpl in H; try discriminate H
         end.

Lemma set_same {T} (m : address -> T) (k : address) (v : T) :
  set m k v k = v.
Proof. unfold set. now rewrite Z.eqb_refl. Qed.

(** A [stake] goes through exactly when its tests pass. *)
Lemma stake_succeeds (s : State) (sender amount : Z) :
  stake_passes s sender amount <->
  exists s' ev, stake s sender amount = inr (s', ev).
Proof.
  unfold stake_passes. split.
  - intros (Hpos & Hallow & Hsender & Hthis & Hheld & Hloan & Hstaked &
            Hloaned & Htotal & Hminter & Hsupply).
    cbv beta iota zeta delta
        [stake and_then require checked_mul checked_add transferFrom
         _transfer mint _mint ok revert negb].
    replace (0 <? amount) with true by (symmetry; apply Z.ltb_lt; lia).
    replace (sender =? 0) with false by (symmetry; apply Z.eqb_neq; lia).
    replace (this s =? 0) with false by (symmetry; apply Z.eqb_neq; lia).
    replace (amount * loanRatio s <=? MAX_UINT256) with true
      by (symmetry; apply Z.leb_le; lia).
    replace (stakedAmount (stakes s sender) + amount <=? MAX_UINT256) with true
      by (symmetry; apply Z.leb_le; lia).
    replace (loanedAmount (stakes s sender) + amount * loanRatio s
             <=? MAX_UINT256) with true by (symmetry; apply Z.leb_le; lia).
    replace (totalStaked s + amount <=? MAX_UINT256) with true
      by (symmetry; apply Z.leb_le; lia).
    replace (totalSupply (token (loanToken s)) + amount * loanRatio s
             <=? MAX_UINT256) with true by (symmetry; apply Z.leb_le; lia).
    rewrite Hminter.
    destruct (allowance (stakingToken s) sender (this s) =? MAX_UINT256) eqn:Hmax;
      simpl.
    + replace (amount <=? balanceOf (stakingToken s) sender) with true
        by (symmetry; apply Z.leb_le; lia).
      simpl. do 2 eexists. reflexivity.
    + apply Z.eqb_neq in Hmax.
      replace (amount <=? allowance (stakingToken s) sender (this s)) with true
        by (symmetry; apply Z.leb_le; destruct Hallow; [congruence | lia]).
      simpl.
      replace (amount <=? balanceOf (stakingToken s) sender) with true
        by (symmetry; apply Z.leb_le; lia).
      simpl. do 2 eexists. reflexivity.
  - intros (s' & ev & H).
    cbv beta iota zeta delta
        [stake and_then require checked_mul checked_add transferFrom
         _transfer mint _mint ok revert negb] in H.
    passed H.
    all: repeat split; try lia; try assumption.
    all: intros Hzero; rewrite Hzero in *; simpl in *; discriminate.
Qed.

(** An [unstake] goes through exactly when its tests pass. *)
Lemma unstake_succeeds (s : State) (sender amount : Z) :
  unstake_passes s sender amount <->
  exists s' ev, unstake s sender amount = inr (s', ev).
Proof.
  unfold unstake_passes. cbv zeta. split.
  - intros (Hamount & Hfits & Hburn & Htotal & Hminter & Hsender & Hheld &
            Hthis & Hstaked).
    cbv beta iota zeta delta
        [unstake and_then require checked_mul checked_div checked_sub
         _transfer burn _burn ok revert negb].
    replace (0 <? amount) with true by (symmetry; apply Z.ltb_lt; lia).
    replace (amount <=? stakedAmount (stakes s sender)) with true
      by (symmetry; apply Z.leb_le; lia).
    replace (amount * loanedAmount (stakes s sender) <=? MAX_UINT256) with true
      by (symmetry; apply Z.leb_le; lia).
    replace (stakedAmount (stakes s sender) =? 0) with false
      by (symmetry; apply Z.eqb_neq; lia).
    replace (0 <? amount * loanedAmount (stakes s sender)
                  / stakedAmount (stakes s sender)) with true
      by (symmetry; apply Z.ltb_lt; lia).
    replace (amount * loanedAmount (stakes s sender)
             / stakedAmount (stakes s sender)
             <=? loanedAmount (stakes s sender)) with true
      by (symmetry; apply Z.leb_le; lia).
    replace (amount <=? totalStaked s) with true
      by (symmetry; apply Z.leb_le; lia).
    rewrite Hminter.
    replace (sender =? 0) with false by (symmetry; apply Z.eqb_neq; lia).
    replace (this s =? 0) with false by (symmetry; apply Z.eqb_neq; lia).
    replace (amount * loanedAmount (stakes s sender)
             / stakedAmount (stakes s sender)
             <=? balanceOf (token (loanToken s)) sender) with true
      by (symmetry; apply Z.leb_le; lia).
    replace (amount <=? balanceOf (stakingToken s) (this s)) with true
      by (symmetry; apply Z.leb_le; lia).
    simpl. do 2 eexists. reflexivity.
  - intros (s' & ev & H).
    cbv beta iota zeta delta
        [unstake and_then require checked_mul checked_div checked_sub
         _transfer burn _burn ok revert negb] in H.
    passed H.
    all: repeat split; try lia; try assumption.
    all: intros Hzero; rewrite Hzero in *; simpl in *; discriminate.
Qed.

(** C9, as the code has it.  A [stake] goes through exactly when its
    tests pass, and then mints exactly [amount * loanRatio] loan tokens to
    the sender and adds the amount and that loan to the position.  An
    [unstake] of [amount] goes through exactly when its tests pass: beyond
    [0 < amount <= stakedAmount], the burn
    [amount * loanedAmount / stakedAmount], rounded down, has to be
    positive, within the recorded loan and held by the sender in loan
    tokens.  It then burns exactly that from the sender and leaves the
    position at [(stakedAmount - amount, loanedAmount - burnAmount)]. *)
Theorem stake_and_unstake_amounts (s : State) (sender amount : Z) :
  let staked := stakedAmount (stakes s sender) in
  let loaned := loanedAmount (stakes s sender) in
  let loanAmount := amount * loanRatio s in
  let burnAmount := amount * loaned / staked in
  (stake_passes s sender amount <->
   exists s',
     stake s sender amount = inr (s', Staked sender amount loanAmount) /\
     balanceOf (token (loanToken s')) sender
     = balanceOf (token (loanToken s)) sender + loanAmount /\
     getUserStake s' sender = (staked + amount, loaned + loanAmount)) /\
  (forall reason,
      stake s sender amount = inl reason -> ~ stake_passes s sender amount) /\
  (unstake_passes s sender amount <->
   exists s',
     unstake s sender amount = inr (s', Unstaked sender amount burnAmount) /\
     balanceOf (token (loanToken s')) sender
     = balanceOf (token (loanToken s)) sender - burnAmount /\
     getUserStake s' sender = (staked - amount, loaned - burnAmount)) /\
  (forall reason,
      unstake s sender amount = inl reason -> ~ unstake_passes s sender amount).
Proof.
  intros staked loaned loanAmount burnAmount.
  assert (Hstake :
            forall s' ev,
              stake s sender amount = inr (s', ev) ->
              ev = Staked sender amount loanAmount /\
              balanceOf (token (loanToken s')) sender
              = balanceOf (token (loanToken s)) sender + loanAmount /\
              getUserStake s' sender = (staked + amount, loaned + loanAmount)).
  { intros s' ev H.
    cbv beta iota zeta delta
        [stake and_then require checked_mul checked_add transferFrom
         _transfer mint _mint ok revert negb] in H.
    passed H.
    all: inversion H; subst; clear H; unfold getUserStake; simpl;
      rewrite !set_same; auto. }
  assert (Hunstake :
            forall s' ev,
              unstake s sender amount = inr (s', ev) ->
              ev = Unstaked sender amount burnAmount /\
              balanceOf (token (loanToken s')) sender
              = balanceOf (token (loanToken s)) sender - burnAmount /\
              getUserStake s' sender = (staked - amount, loaned - burnAmount)).
  { intros s' ev H.
    cbv beta iota zeta delta
        [unstake and_then require checked_mul checked_div checked_sub
         _transfer burn _burn ok revert negb] in H.
    passed H.
    inversion H; subst; clear H; unfold getUserStake; simpl.
    rewrite !set_same. simpl. repeat split; reflexivity. }
  split; [|split; [|split]].
  - split.
    + intros Hpasses. apply stake_succeeds in Hpasses.
      destruct Hpasses as (s' & ev & H).
      destruct (Hstake s' ev H) as (-> & Hbalance & Hposition).
      exists s'. repeat split; assumption.
    + intros (s' & H & _). apply stake_succeeds. now exists s', (Staked sender amount loanAmount).
  - intros reason H Hpasses. apply stake_succeeds in Hpasses.
    destruct Hpasses as (s' & ev & H'). congruence.
  - split.
    + intros Hpasses. apply unstake_succeeds in Hpasses.
      destruct Hpasses as (s' & ev & H).
      destruct (Hunstake s' ev H) as (-> & Hbalance & Hposition).
      exists s'. repeat split; assumption.
    + intros (s' & H & _). apply unstake_succeeds.
      now exists s', (Unstaked sender amount burnAmount).
  - intros reason H Hpasses. apply unstake_succeeds in Hpasses.
    destruct Hpasses as (s' & ev & H'). congruence.
Qed.

End StakingContract.

(** Staking 5 at a ratio of 10 mints 50; unstaking 1 from 2 staked and 20
    loaned burns 10 and leaves 1 and 10. *)
Lemma stake_and_unstake_amounts_witness :
  (exists s',
      Contract.stake funded user 5 = inr (s', Contract.Staked user 5 50) /\
      Contract.balanceOf (Contract.token (Contract.loanToken s')) user = 50 /\
      Contract.getUserStake s' user = (5, 50)) /\
  (exists s',
      Contract.unstake two_staked user 1 = inr (s', Contract.Unstaked user 1 10) /\
      Contract.balanceOf (Contract.token (Contract.loanToken s')) user = 10 /\
      Contract.getUserStake s' user = (1, 10)).
Proof.
  split.
  - destruct (stake_and_unstake_amounts funded user 5) as ([Hstake _] & _).
    apply Hstake. unfold Contract.stake_passes. vm_compute.
    repeat split; try discriminate. right. discriminate.
  - destruct (stake_and_unstake_amounts two_staked user 1)
      as (_ & _ & [Hunstake _] & _).
    apply Hunstake. unfold Contract.unstake_passes. vm_compute.
    repeat split; discriminate.
Defined.

(** The claim C9 at a position of 2 staked and 20 loaned whose holder has
    given 15 of the 20 loan tokens away: [stakedAmount >= amount > 0] holds
    for an unstake of 1, which burns nothing and leaves the position as it
    was, because it reverts. *)
Lemma unstake_without_the_loan_reverts :
  exists s1 s2,
    Contract.stake funded user 2 = inr (s1, Contract.Staked user 2 20) /\
    Contract.loan_transfer s1 user deployer 15 = inr s2 /\
    Contract.getUserStake s2 user = (2, 20) /\
    Contract.balanceOf (Contract.token (Contract.loanToken s2)) user = 5 /\
    Contract.unstake s2 user 1 = inl "ERC20InsufficientBalance".
Proof.
  do 2 eexists.
  split; [reflexivity|]. split; [reflexivity|].
  split; [reflexivity|]. split; reflexivity.
Qed.

(** ** More on the staking contract *)

Section ContractAccounting.

Import Contract Admin.

Ltac decided H :=
  repeat match type of H with
         | context [if ?b then _ else _] =>
             let Hb := fresh "Hb" in
             destruct b eqn:Hb; simpl in H; try discriminate H
         end.

(** What an [unstake] that went through was asked, and what it left. *)
Lemma unstake_through (s s' : State) (sender amount : Z) (ev : Event) :
  unstake s sender amount = inr (s', ev) ->
  let staked := stakedAmount (stakes s sender) in
  let loaned := loanedAmount (stakes s sender) in
  let burnAmount := amount * loaned / staked in
  (0 < amount <= staked /\ 0 < burnAmount <= loaned /\
   amount <= totalStaked s /\
   minters (loanToken s) (this s) = true /\
   burnAmount <= balanceOf (token (loanToken s)) sender /\
   amount <= balanceOf (stakingToken s) (this s)) /\
  ev = Unstaked sender amount burnAmount /\
  s' = {| this := this s;
          stakingToken :=
            {| balanceOf :=
                 set (set (balanceOf (stakingToken s)) (this s)
                        (balanceOf (stakingToken s) (this s) - amount))
                     sender
                     (set (balanceOf (stakingToken s)) (this s)
                        (balanceOf (stakingToken s) (this s) - amount) sender
                      + amount);
               allowance := allowance (stakingToken s);
               totalSupply := totalSupply (stakingToken s) |};
          loanToken :=
            {| token :=
                 {| balanceOf :=
                      set (balanceOf (token (loanToken s))) sender
                        (balanceOf (token (loanToken s)) sender - burnAmount);
                    allowance := allowance (token (loanToken s));
                    totalSupply := totalSupply (token (loanToken s)) - burnAmount |};
               minters := minters (loanToken s) |};
          loanRatio := loanRatio s;
          stakes := set (stakes s) sender
                      {| stakedAmount := staked - amount;
                         loanedAmount := loaned - burnAmount |};
          totalStaked := totalStaked s - amount |}.
Proof.
  intros H. cbv zeta.
  cbv beta iota zeta delta
      [unstake and_then require checked_mul checked_div checked_sub
       _transfer burn _burn ok revert negb] in H.
  decided H. inversion H; subst; clear H.
  repeat split; try reflexivity; try assumption;
    try (apply Z.ltb_lt; assumption); apply Z.leb_le; assumption.
Qed.

(** What a [stake] that went through left. *)
Lemma stake_through (s s' : State) (sender amount : Z) (ev : Event) :
  stake s sender amount = inr (s', ev) ->
  let loanAmount := amount * loanRatio s in
  (0 < amount /\ minters (loanToken s) (this s) = true /\
   amount <= balanceOf (stakingToken s) sender /\
   sender <> 0 /\ this s <> 0 /\ amount * loanRatio s <= MAX_UINT256) /\
  ev = Staked sender amount loanAmount /\
  this s' = this s /\ loanRatio s' = loanRatio s /\
  totalStaked s' = totalStaked s + amount /\
  stakes s' = set (stakes s) sender
                {| stakedAmount := stakedAmount (stakes s sender) + amount;
                   loanedAmount := loanedAmount (stakes s sender) + loanAmount |} /\
  balanceOf (stakingToken s')
  = set (set (balanceOf (stakingToken s)) sender
           (balanceOf (stakingToken s) sender - amount))
        (this s)
        (set (balanceOf (stakingToken s)) sender
           (balanceOf (stakingToken s) sender - amount) (this s) + amount) /\
  totalSupply (stakingToken s') = totalSupply (stakingToken s) /\
  balanceOf (token (loanToken s'))
  = set (balanceOf (token (loanToken s))) sender
      (balanceOf (token (loanToken s)) sender + loanAmount) /\
  totalSupply (token (loanToken s'))
  = totalSupply (token (loanToken s)) + loanAmount /\
  allowance (token (loanToken s')) = allowance (token (loanToken s)) /\
  minters (loanToken s') = minters (loanToken s).
Proof.
  intros H. cbv zeta.
  cbv beta iota zeta delta
      [stake and_then require checked_mul checked_add transferFrom
       _transfer mint _mint ok revert negb] in H.
  decided H.
  all: inversion H; subst; clear H; simpl.
  all: repeat split; try reflexivity; try assumption;
    try (apply Z.ltb_lt; assumption); try (apply Z.leb_le; assumption).
  all: intros Hzero; rewrite Hzero in *; simpl in *; discriminate.
Qed.

(** A full unstake burns the whole recorded loan: an [unstake] of the
    entire staked amount that goes through burns exactly [loanedAmount] and
    leaves the position at (0, 0). *)
Theorem full_unstake_burns_whole_loan (s s' : State) (sender : Z) (ev : Event) :
  unstake s sender (stakedAmount (stakes s sender)) = inr (s', ev) ->
  ev = Unstaked sender (stakedAmount (stakes s sender))
         (loanedAmount (stakes s sender)) /\
  getUserStake s' sender = (0, 0) /\
  balanceOf (token (loanToken s')) sender
  = balanceOf (token (loanToken s)) sender - loanedAmount (stakes s sender).
Proof.
  intros H. apply unstake_through in H. cbv zeta in H.
  destruct H as ((Hamount & _) & -> & ->).
  rewrite Z.mul_comm, Z.div_mul by lia.
  unfold getUserStake. simpl. rewrite !set_same. simpl.
  repeat split; f_equal; lia.
Qed.

(** The tests of [unstake], all passed. *)
Lemma unstake_total (s : State) (sender amount : Z) :
  let staked := stakedAmount (stakes s sender) in
  let loaned := loanedAmount (stakes s sender) in
  let burnAmount := amount * loaned / staked in
  0 < amount <= staked ->
  amount * loaned <= MAX_UINT256 ->
  0 < burnAmount <= loaned ->
  burnAmount <= balanceOf (token (loanToken s)) sender ->
  amount <= totalStaked s ->
  amount <= balanceOf (stakingToken s) (this s) ->
  minters (loanToken s) (this s) = true ->
  sender <> 0 -> this s <> 0 ->
  exists s', unstake s sender amount
             = inr (s', Unstaked sender amount burnAmount).
Proof.
  intros staked loaned burnAmount
         Hamount Hfits Hburn Hheld Htotal Hstaked Hminter Hsender Hthis.
  cbv beta iota zeta delta
      [unstake and_then require checked_mul checked_div checked_sub
       _transfer burn _burn ok revert negb].
  fold staked loaned.
  replace (0 <? amount) with true by (symmetry; apply Z.ltb_lt; lia).
  replace (amount <=? staked) with true by (symmetry; apply Z.leb_le; lia).
  replace (amount * loaned <=? MAX_UINT256) with true
    by (symmetry; apply Z.leb_le; lia).
  replace (staked =? 0) with false by (symmetry; apply Z.eqb_neq; lia).
  fold burnAmount.
  replace (0 <? burnAmount) with true by (symmetry; apply Z.ltb_lt; lia).
  replace (burnAmount <=? loaned) with true by (symmetry; apply Z.leb_le; lia).
  replace (amount <=? totalStaked s) with true
    by (symmetry; apply Z.leb_le; lia).
  rewrite Hminter.
  replace (sender =? 0) with false by (symmetry; apply Z.eqb_neq; lia).
  replace (this s =? 0) with false by (symmetry; apply Z.eqb_neq; lia).
  replace (burnAmount <=? balanceOf (token (loanToken s)) sender) with true
    by (symmetry; apply Z.leb_le; lia).
  replace (amount <=? balanceOf (stakingToken s) (this s)) with true
    by (symmetry; apply Z.leb_le; lia).
  simpl. eexists. reflexivity.
Qed.

(** In a sound state the burn of a valid unstake is positive and at most
    the recorded loan: the unstake goes through as soon as the product fits
    in a [uint256] and the tokens are there, never reverting with "Burn
    amount too small" or on the loan subtraction. *)
Theorem unstake_goes_through_when_sound (s : State) (sender amount : Z) :
  sound s ->
  0 < amount <= stakedAmount (stakes s sender) ->
  amount * loanedAmount (stakes s sender) <= MAX_UINT256 ->
  amount * loanedAmount (stakes s sender) / stakedAmount (stakes s sender)
  <= balanceOf (token (loanToken s)) sender ->
  amount <= totalStaked s ->
  amount <= balanceOf (stakingToken s) (this s) ->
  minters (loanToken s) (this s) = true ->
  sender <> 0 -> this s <> 0 ->
  exists s' burnAmount,
    unstake s sender amount = inr (s', Unstaked sender amount burnAmount) /\
    amount <= burnAmount <= loanedAmount (stakes s sender).
Proof.
  intros [_ Hsound] Hamount Hfits Hheld Htotal Hstaked Hminter Hsender Hthis.
  specialize (Hsound sender).
  assert (Hlow : amount <= amount * loanedAmount (stakes s sender)
                           / stakedAmount (stakes s sender)).
  { apply Z.div_le_lower_bound; nia. }
  assert (Hhigh : amount * loanedAmount (stakes s sender)
                  / stakedAmount (stakes s sender)
                  <= loanedAmount (stakes s sender)).
  { apply Z.div_le_upper_bound; nia. }
  destruct (unstake_total s sender amount) as [s' Hs']; try assumption; try lia.
  exists s'. eexists. split; [exact Hs' | lia].
Qed.

(** What a [stakeForUser] that went through left. *)
Lemma stakeForUser_through (s s' : State) (sender beneficiary amount : Z) (ev : Event) :
  stakeForUser s sender beneficiary amount = inr (s', ev) ->
  let loanAmount := amount * loanRatio s in
  (0 < amount /\ beneficiary <> 0 /\
   amount <= balanceOf (stakingToken s) sender) /\
  ev = Staked beneficiary amount loanAmount /\
  this s' = this s /\ loanRatio s' = loanRatio s /\
  totalStaked s' = totalStaked s + amount /\
  stakes s' = set (stakes s) beneficiary
                {| stakedAmount := stakedAmount (stakes s beneficiary) + amount;
                   loanedAmount := loanedAmount (stakes s beneficiary) + loanAmount |} /\
  balanceOf (stakingToken s')
  = set (set (balanceOf (stakingToken s)) sender
           (balanceOf (stakingToken s) sender - amount))
        (this s)
        (set (balanceOf (stakingToken s)) sender
           (balanceOf (stakingToken s) sender - amount) (this s) + amount) /\
  balanceOf (token (loanToken s'))
  = set (balanceOf (token (loanToken s))) beneficiary
      (balanceOf (token (loanToken s)) beneficiary + loanAmount).
Proof.
  intros H. cbv zeta.
  cbv beta iota zeta delta
      [stakeForUser and_then require checked_mul checked_add transferFrom
       _transfer mint _mint ok revert negb] in H.
  decided H.
  all: inversion H; subst; clear H; simpl.
  all: repeat split; try reflexivity; try assumption;
    try (apply Z.ltb_lt; assumption); try (apply Z.leb_le; assumption).
  all: intros Hzero; rewrite Hzero in *; simpl in *; discriminate.
Qed.

Lemma set_other {T} (m : address -> T) (k k' : address) (v : T) :
  k' <> k -> set m k v k' = m k'.
Proof.
  intros Hne. unfold set.
  destruct (k' =? k) eqn:E; [apply Z.eqb_eq in E; contradiction | reflexivity].
Qed.

(** The state stays sound: [stake], [stakeForUser], [unstake] and the
    owner's [updateLoanRatio], [addMinter] and [removeMinter] keep the ratio
    positive and every user's recorded loan at least as large as the stake. *)
Theorem sound_preserved (s : State) :
  sound s ->
  (forall sender amount s' ev,
      stake s sender amount = inr (s', ev) -> sound s') /\
  (forall sender beneficiary amount s' ev,
      stakeForUser s sender beneficiary amount = inr (s', ev) -> sound s') /\
  (forall sender amount s' ev,
      unstake s sender amount = inr (s', ev) -> sound s') /\
  (forall owner1 owner2 sender x y',
      updateLoanRatio {| staking := s; stakingOwner := owner1; loanOwner := owner2 |}
        sender x = inr y' \/
      addMinter {| staking := s; stakingOwner := owner1; loanOwner := owner2 |}
        sender x = inr y' \/
      removeMinter {| staking := s; stakingOwner := owner1; loanOwner := owner2 |}
        sender x = inr y' ->
      sound (staking y')).
Proof.
  intros [Hratio Hsound]. split; [|split; [|split]].
  - intros sender amt s' ev H. apply stake_through in H. cbv zeta in H.
    destruct H as ((Hamount & _) & _ & _ & Hr & _ & Hst & _).
    split; [now rewrite Hr|]. intros u. rewrite Hst.
    pose proof (Hsound u). pose proof (Hsound sender).
    unfold set. destruct (u =? sender) eqn:E; simpl; nia.
  - intros sender beneficiary amt s' ev H.
    apply stakeForUser_through in H. cbv zeta in H.
    destruct H as ((Hamount & _) & _ & _ & Hr & _ & Hst & _).
    split; [now rewrite Hr|]. intros u. rewrite Hst.
    pose proof (Hsound u). pose proof (Hsound beneficiary).
    unfold set. destruct (u =? beneficiary) eqn:E; simpl; nia.
  - intros sender amt s' ev H. apply unstake_through in H. cbv zeta in H.
    destruct H as ((Hamount & _) & _ & ->).
    split; [exact Hratio|]. intros u. simpl.
    pose proof (Hsound u) as Hu. pose proof (Hsound sender) as Hs.
    unfold set. destruct (u =? sender) eqn:E; simpl; [|lia].
    assert (amt * loanedAmount (stakes s sender) / stakedAmount (stakes s sender)
            <= loanedAmount (stakes s sender) - stakedAmount (stakes s sender) + amt).
    { apply Z.div_le_upper_bound; nia. }
    lia.
  - intros owner1 owner2 sender x y' H.
    destruct H as [H | [H | H]];
      cbv beta iota zeta delta
          [updateLoanRatio addMinter removeMinter onlyOwner and_then require
           ok revert with_minters negb] in H;
      simpl in H; decided H; inversion H; subst; simpl;
      (split; [|exact Hsound]); try exact Hratio.
    simpl. apply Z.ltb_lt. assumption.
Qed.

(** Staking from an empty position and unstaking the same amount gives
    everything back: the burn is the whole loan minted, the position is
    empty again, and every token balance, the loan supply and the total
    staked are as before.  The unstake needs [amount * (amount * loanRatio)]
    to fit in a [uint256], which the stake did not. *)
Theorem stake_then_unstake_restores (s s1 : State) (sender amount : Z) (ev : Event) :
  stakes s sender = {| stakedAmount := 0; loanedAmount := 0 |} ->
  0 < loanRatio s ->
  0 <= totalStaked s ->
  0 <= balanceOf (stakingToken s) (this s) ->
  0 <= balanceOf (token (loanToken s)) sender ->
  stake s sender amount = inr (s1, ev) ->
  amount * (amount * loanRatio s) <= MAX_UINT256 ->
  exists s2,
    unstake s1 sender amount
    = inr (s2, Unstaked sender amount (amount * loanRatio s)) /\
    getUserStake s2 sender = (0, 0) /\
    totalStaked s2 = totalStaked s /\
    (forall a, balanceOf (stakingToken s2) a = balanceOf (stakingToken s) a) /\
    (forall a, balanceOf (token (loanToken s2)) a
               = balanceOf (token (loanToken s)) a) /\
    totalSupply (token (loanToken s2)) = totalSupply (token (loanToken s)).
Proof.
  intros Hempty Hratio Htotal Hheld Hloan Hstake Hfits.
  apply stake_through in Hstake. cbv zeta in Hstake.
  destruct Hstake as ((Hamount & Hminter & Hbal & Hsender & Hthis & _) & _
                      & Hthis1 & Hratio1 & Htotal1 & Hstakes1 & Hbal1 & Hsupply1
                      & Hloan1 & Hloansupply1 & _ & Hminters1).
  assert (Hposition : stakes s1 sender
                      = {| stakedAmount := amount;
                           loanedAmount := amount * loanRatio s |}).
  { rewrite Hstakes1, set_same, Hempty. reflexivity. }
  assert (Hburn : amount * (amount * loanRatio s) / amount = amount * loanRatio s).
  { rewrite Z.mul_comm. apply Z.div_mul. lia. }
  destruct (unstake_total s1 sender amount) as [s2 Hs2].
  - rewrite Hposition. simpl. lia.
  - rewrite Hposition. simpl. lia.
  - rewrite Hposition. simpl. rewrite Hburn. nia.
  - rewrite Hposition. simpl. rewrite Hburn, Hloan1, set_same. lia.
  - lia.
  - rewrite Hbal1, Hthis1, set_same. unfold set.
    destruct (this s =? sender); lia.
  - rewrite Hminters1, Hthis1. exact Hminter.
  - exact Hsender.
  - now rewrite Hthis1.
  - cbv zeta in Hs2. rewrite Hposition in Hs2. simpl in Hs2.
    rewrite Hburn in Hs2.
    exists s2. split; [exact Hs2|].
    apply unstake_through in Hs2. cbv zeta in Hs2.
    destruct Hs2 as (_ & _ & ->).
    rewrite Hposition. simpl. rewrite Hburn.
    unfold getUserStake. simpl. rewrite !set_same. simpl.
    rewrite Hthis1, Hbal1, Hloan1, Htotal1, Hloansupply1.
    repeat split.
    + f_equal; lia.
    + lia.
    + intros a. unfold set.
      repeat match goal with
             | |- context [?x =? ?y] => destruct (Z.eqb_spec x y)
             end; subst; try lia; congruence.
    + intros a. unfold set.
      repeat match goal with
             | |- context [?x =? ?y] => destruct (Z.eqb_spec x y)
             end; subst; try lia; congruence.
    + lia.
Qed.

(** [stake] and [unstake] keep the books: the staking tokens the contract
    holds move with [totalStaked], the loan supply and the sender's loan
    tokens move with the sender's recorded loan, no other position changes
    and no loan-token allowance is read or written. *)
Theorem staking_keeps_the_books (s s' : State) (sender amount : Z) (ev : Event) :
  sender <> this s ->
  stake s sender amount = inr (s', ev) \/
  unstake s sender amount = inr (s', ev) ->
  balanceOf (stakingToken s') (this s') - totalStaked s'
  = balanceOf (stakingToken s) (this s) - totalStaked s /\
  totalSupply (token (loanToken s')) - loanedAmount (stakes s' sender)
  = totalSupply (token (loanToken s)) - loanedAmount (stakes s sender) /\
  balanceOf (token (loanToken s')) sender - loanedAmount (stakes s' sender)
  = balanceOf (token (loanToken s)) sender - loanedAmount (stakes s sender) /\
  (forall u, u <> sender -> stakes s' u = stakes s u) /\
  allowance (token (loanToken s')) = allowance (token (loanToken s)).
Proof.
  intros Hne [H | H].
  - apply stake_through in H. cbv zeta in H.
    destruct H as (_ & _ & Hthis1 & _ & Htotal1 & Hstakes1 & Hbal1 & _
                   & Hloan1 & Hloansupply1 & Hallow & _).
    rewrite Hthis1, Htotal1, Hstakes1, Hbal1, Hloan1, Hloansupply1, Hallow.
    rewrite !set_same. simpl. rewrite (set_other _ sender (this s)) by congruence.
    repeat split; try lia.
    intros u Hu. now apply set_other.
  - apply unstake_through in H. cbv zeta in H.
    destruct H as (_ & _ & ->). simpl.
    rewrite !set_same. simpl. rewrite (set_other _ sender (this s)) by congruence.
    rewrite set_same.
    repeat split; try lia.
    intros u Hu. now apply set_other.
Qed.

(** Once the loan token's owner has removed the staking contract from the
    minters, which only that owner can do, every [stake], [stakeForUser] and
    [unstake] reverts: the staked tokens cannot be taken out. *)
Theorem removed_minter_blocks_staking (y y' : System) (sender : Z) :
  removeMinter y sender (this (staking y)) = inr y' ->
  sender = loanOwner y /\
  forall u b a,
    (exists reason, stake (staking y') u a = inl reason) /\
    (exists reason, stakeForUser (staking y') u b a = inl reason) /\
    (exists reason, unstake (staking y') u a = inl reason).
Proof.
  intros H.
  cbv beta iota zeta delta
      [removeMinter onlyOwner and_then require ok revert with_minters] in H.
  decided H. inversion H; subst; clear H.
  split; [now apply Z.eqb_eq|].
  intros u b a.
  assert (Hoff : minters (loanToken
                   (with_minters (staking y)
                      (set (minters (loanToken (staking y))) (this (staking y)) false)))
                   (this (staking y)) = false) by (simpl; apply set_same).
  unfold with_minters in *. simpl in *.
  repeat split.
  - cbv beta iota zeta delta
        [stake and_then require checked_mul checked_add transferFrom
         _transfer mint _mint ok revert negb].
    simpl. rewrite Hoff.
    repeat match goal with
           | |- context [if ?c then _ else _] => destruct c
           end; eexists; reflexivity.
  - cbv beta iota zeta delta
        [stakeForUser and_then require checked_mul checked_add transferFrom
         _transfer mint _mint ok revert negb].
    simpl. rewrite Hoff.
    repeat match goal with
           | |- context [if ?c then _ else _] => destruct c
           end; eexists; reflexivity.
  - cbv beta iota zeta delta
        [unstake and_then require checked_mul checked_div checked_sub
         _transfer burn _burn ok revert negb].
    simpl. rewrite Hoff.
    repeat match goal with
           | |- context [if ?c then _ else _] => destruct c
           end; eexists; reflexivity.
Qed.

(** [stakeForUser] takes the tokens from the caller and credits the user:
    the user's position and loan tokens grow, every other position is as
    before; called for oneself it is [stake]. *)
Theorem stakeForUser_credits_user (s : State) (sender beneficiary amount : Z) :
  (forall s' ev,
      stakeForUser s sender beneficiary amount = inr (s', ev) ->
      ev = Staked beneficiary amount (amount * loanRatio s) /\
      getUserStake s' beneficiary
      = (stakedAmount (stakes s beneficiary) + amount,
         loanedAmount (stakes s beneficiary) + amount * loanRatio s) /\
      (forall u, u <> beneficiary -> getUserStake s' u = getUserStake s u) /\
      balanceOf (token (loanToken s')) beneficiary
      = balanceOf (token (loanToken s)) beneficiary + amount * loanRatio s /\
      (sender <> this s ->
       balanceOf (stakingToken s') sender
       = balanceOf (stakingToken s) sender - amount)) /\
  (sender <> 0 -> stakeForUser s sender sender amount = stake s sender amount).
Proof.
  split.
  - intros s' ev H. apply stakeForUser_through in H. cbv zeta in H.
    destruct H as (_ & -> & _ & _ & _ & Hstakes & Hbal & Hloan).
    unfold getUserStake. rewrite Hstakes, Hbal, Hloan, !set_same. simpl.
    repeat split.
    + intros u Hu. now rewrite set_other.
    + intros Hne. rewrite set_other by exact Hne. apply set_same.
  - intros Hsender. unfold stakeForUser, stake, and_then, require.
    replace (sender =? 0) with false by (symmetry; now apply Z.eqb_neq).
    reflexivity.
Qed.

(** The owner's [emergencyWithdraw] of the staking token moves tokens the
    contract holds to the owner and leaves [totalStaked] and every position
    as recorded; after a withdrawal of the whole balance every [unstake]
    reverts, whatever the positions say. *)
Theorem emergencyWithdraw_strands_stakes (y y' : System) (sender amount : Z) :
  stakingOwner y <> this (staking y) ->
  emergencyWithdraw y sender amount = inr y' ->
  sender = stakingOwner y /\
  totalStaked (staking y') = totalStaked (staking y) /\
  stakes (staking y') = stakes (staking y) /\
  balanceOf (stakingToken (staking y')) (this (staking y'))
  = balanceOf (stakingToken (staking y)) (this (staking y)) - amount /\
  balanceOf (stakingToken (staking y')) (stakingOwner y')
  = balanceOf (stakingToken (staking y)) (stakingOwner y) + amount /\
  (amount = balanceOf (stakingToken (staking y)) (this (staking y)) ->
   forall u a, exists reason, unstake (staking y') u a = inl reason).
Proof.
  intros Hother H.
  cbv beta iota zeta delta [emergencyWithdraw onlyOwner _transfer and_then
                              require ok revert] in H.
  destruct (sender =? stakingOwner y) eqn:Hs; [|discriminate H].
  destruct (negb (this (staking y) =? 0)) eqn:H1; [|discriminate H].
  destruct (negb (stakingOwner y =? 0)) eqn:H2; [|discriminate H].
  destruct (amount <=? balanceOf (stakingToken (staking y)) (this (staking y)))
           eqn:H3; [|discriminate H].
  inversion H; subst y'; clear H. cbn.
  apply Z.eqb_eq in Hs.
  assert (Hthis : balanceOf (stakingToken (staking y)) (this (staking y)) - amount
                  = set (balanceOf (stakingToken (staking y))) (this (staking y))
                      (balanceOf (stakingToken (staking y)) (this (staking y)) - amount)
                      (this (staking y))).
  { unfold set. now rewrite Z.eqb_refl. }
  assert (Hheld :
            set (set (balanceOf (stakingToken (staking y))) (this (staking y))
                   (balanceOf (stakingToken (staking y)) (this (staking y)) - amount))
                (stakingOwner y)
                (set (balanceOf (stakingToken (staking y))) (this (staking y))
                   (balanceOf (stakingToken (staking y)) (this (staking y)) - amount)
                   (stakingOwner y) + amount)
                (this (staking y))
            = balanceOf (stakingToken (staking y)) (this (staking y)) - amount).
  { unfold set.
    destruct (Z.eqb_spec (this (staking y)) (stakingOwner y)) as [Heq|_];
      [congruence|].
    now rewrite Z.eqb_refl. }
  repeat split; try assumption.
  - unfold set. rewrite Z.eqb_refl.
    destruct (Z.eqb_spec (stakingOwner y) (this (staking y))) as [Heq|_];
      [congruence | reflexivity].
  - intros Hall u a.
    match goal with
    | |- exists reason, unstake ?st u a = inl reason =>
        destruct (unstake st u a) as [reason|[s2 ev]] eqn:Hu;
        [eexists; reflexivity|]
    end.
    apply unstake_through in Hu. cbn in Hu.
    destruct Hu as ((Hpos & _ & _ & _ & _ & Hheld') & _).
    rewrite Hheld in Hheld'. lia.
Qed.

End ContractAccounting.

Lemma sound_two_staked : Admin.sound two_staked.
Proof.
  split; [reflexivity|]. intros u. simpl.
  destruct (u =? user); simpl; lia.
Qed.

Lemma sound_funded : Admin.sound funded.
Proof. split; [reflexivity|]. intros u. simpl. lia. Qed.

Lemma full_unstake_burns_whole_loan_witness :
  exists s',
    Contract.unstake two_staked user 2 = inr (s', Contract.Unstaked user 2 20) /\
    Contract.getUserStake s' user = (0, 0) /\
    Contract.balanceOf (Contract.token (Contract.loanToken s')) user = 0.
Proof.
  destruct (Contract.unstake two_staked user 2) as [reason|[s' ev]] eqn:H.
  - vm_compute in H. discriminate.
  - destruct (full_unstake_burns_whole_loan two_staked s' user ev H)
      as (Hev & Hposition & Hbalance).
    exists s'. rewrite Hev, Hposition, Hbalance. repeat split.
Defined.

Lemma unstake_goes_through_when_sound_witness :
  exists s' burnAmount,
    Contract.unstake two_staked user 1
    = inr (s', Contract.Unstaked user 1 burnAmount) /\
    1 <= burnAmount <= 20.
Proof.
  apply (unstake_goes_through_when_sound two_staked user 1).
  - exact sound_two_staked.
  - vm_compute. split; [reflexivity | discriminate].
  - vm_compute. discriminate.
  - vm_compute. discriminate.
  - vm_compute. discriminate.
  - vm_compute. discriminate.
  - reflexivity.
  - discriminate.
  - discriminate.
Defined.

Lemma sound_preserved_witness :
  exists s' ev,
    Contract.stake funded user 5 = inr (s', ev) /\ Admin.sound s'.
Proof.
  destruct (Contract.stake funded user 5) as [reason|[s' ev]] eqn:H.
  - vm_compute in H. discriminate.
  - exists s', ev. split; [reflexivity|].
    destruct (sound_preserved funded sound_funded) as (Hstake & _).
    exact (Hstake user 5 s' ev H).
Defined.

Lemma stake_then_unstake_restores_witness :
  exists s1 ev s2,
    Contract.stake funded user 5 = inr (s1, ev) /\
    Contract.unstake s1 user 5 = inr (s2, Contract.Unstaked user 5 50) /\
    Contract.getUserStake s2 user = (0, 0) /\
    Contract.totalStaked s2 = 0.
Proof.
  destruct (Contract.stake funded user 5) as [reason|[s1 ev]] eqn:H.
  - vm_compute in H. discriminate.
  - destruct (stake_then_unstake_restores funded s1 user 5 ev)
      as (s2 & Hunstake & Hposition & Htotal & _).
    + reflexivity.
    + reflexivity.
    + vm_compute. discriminate.
    + vm_compute. discriminate.
    + vm_compute. discriminate.
    + exact H.
    + vm_compute. discriminate.
    + exists s1, ev, s2. repeat split; assumption.
Defined.

Lemma staking_keeps_the_books_witness :
  exists s' ev,
    Contract.stake funded user 5 = inr (s', ev) /\
    Contract.balanceOf (Contract.stakingToken s') (Contract.this s')
    - Contract.totalStaked s' = 0 /\
    Contract.totalSupply (Contract.token (Contract.loanToken s'))
    - Contract.loanedAmount (Contract.stakes s' user) = 0.
Proof.
  destruct (Contract.stake funded user 5) as [reason|[s' ev]] eqn:H.
  - vm_compute in H. discriminate.
  - destruct (staking_keeps_the_books funded s' user 5 ev)
      as (Hheld & Hsupply & _).
    + discriminate.
    + left. exact H.
    + exists s', ev. rewrite Hheld, Hsupply. repeat split.
Defined.

Lemma removed_minter_blocks_staking_witness :
  exists y',
    Admin.removeMinter deployed deployer staking_contract = inr y' /\
    exists reason, Contract.unstake (Admin.staking y') user 2 = inl reason.
Proof.
  destruct (Admin.removeMinter deployed deployer staking_contract)
    as [reason|y'] eqn:H.
  - vm_compute in H. discriminate.
  - exists y'. split; [reflexivity|].
    destruct (removed_minter_blocks_staking deployed y' deployer H)
      as (_ & Hblocked).
    destruct (Hblocked user user 2) as (_ & _ & Hunstake).
    exact Hunstake.
Defined.

Lemma emergencyWithdraw_strands_stakes_witness :
  exists y',
    Admin.emergencyWithdraw deployed deployer 2 = inr y' /\
    Contract.getUserStake (Admin.staking y') user = (2, 20) /\
    exists reason, Contract.unstake (Admin.staking y') user 2 = inl reason.
Proof.
  destruct (Admin.emergencyWithdraw deployed deployer 2) as [reason|y'] eqn:H.
  - vm_compute in H. discriminate.
  - exists y'. split; [reflexivity|].
    destruct (emergencyWithdraw_strands_stakes deployed y' deployer 2)
      as (_ & _ & Hstakes & _ & _ & Hstranded).
    + discriminate.
    + exact H.
    + split.
      * unfold Contract.getUserStake. rewrite Hstakes. reflexivity.
      * apply Hstranded. reflexivity.
Defined.

(** ** The log stream *)

Section LogStreamFacts.

Import LogStream.

Lemma fold_write_to (message : string) (l : list Client) :
  forall sv,
    let sv' := fold_left (write_to message) l sv in
    clients sv' = clients sv /\ broken sv' = broken sv /\
    wire sv' = (wire sv ++ delivered message sv l)%list /\
    stdout sv' = (stdout sv ++ complaints sv l)%list.
Proof.
  induction l as [|c l IH]; intros sv; simpl.
  - unfold delivered, complaints. simpl. now rewrite !app_nil_r.
  - destruct (IH (write_to message sv c)) as (Hc & Hb & Hw & Hs).
    rewrite Hc, Hb, Hw, Hs. unfold write_to, delivered, complaints. simpl.
    destruct (broken sv (response c)) as [error|] eqn:E; simpl;
      rewrite <- ?app_assoc; repeat split; reflexivity.
Qed.

Lemma sendLogToAll_effect (message : string) (sv : Server) :
  clients (sendLogToAll message sv) = clients sv /\
  broken (sendLogToAll message sv) = broken sv /\
  wire (sendLogToAll message sv)
  = (wire sv ++ delivered message sv (clients sv))%list /\
  stdout (sendLogToAll message sv)
  = (stdout sv ++ message :: complaints sv (clients sv))%list.
Proof.
  unfold sendLogToAll.
  destruct (fold_write_to message (clients (originalConsoleLog message sv))
              (originalConsoleLog message sv)) as (Hc & Hb & Hw & Hs).
  rewrite Hc, Hb, Hw, Hs. simpl. rewrite <- app_assoc.
  repeat split; reflexivity.
Qed.

(** [sendLogToAll] prints the line locally, writes [data: line] to every
    observer whose connection takes the write, in the order they connected,
    and prints one complaint for each that does not; an observer that fails
    does not stop the others and is not removed, so every registration gets
    exactly one of the two. *)
Theorem sendLogToAll_delivers (message : string) (sv : Server) :
  clients (sendLogToAll message sv) = clients sv /\
  broken (sendLogToAll message sv) = broken sv /\
  wire (sendLogToAll message sv)
  = (wire sv ++ delivered message sv (clients sv))%list /\
  stdout (sendLogToAll message sv)
  = (stdout sv ++ message :: complaints sv (clients sv))%list /\
  (List.length (delivered message sv (clients sv))
   + List.length (complaints sv (clients sv))
   = List.length (clients sv))%nat.
Proof.
  destruct (sendLogToAll_effect message sv) as (Hc & Hb & Hw & Hs).
  repeat (split; [assumption|]). clear Hc Hb Hw Hs.
  unfold delivered, complaints.
  induction (clients sv) as [|c l IH]; [reflexivity|].
  cbn [map filter flat_map List.length].
  destruct (broken sv (response c)); cbn [map filter flat_map List.length app];
    rewrite <- IH; lia.
Qed.

Lemma received_delivered (message : string) (res : nat) (sv : Server) (l : list Client) :
  map snd (filter (fun p => Nat.eqb (fst p) res) (delivered message sv l))
  = match broken sv res with
    | None => repeat (frame message)
                (List.length (filter (fun c => Nat.eqb (response c) res) l))
    | Some _ => []
    end.
Proof.
  unfold delivered.
  induction l as [|c l IH]; [now destruct (broken sv res)|].
  cbn [filter map].
  destruct (Nat.eqb_spec (response c) res) as [Heq|Hne].
  - destruct (broken sv (response c)) eqn:B; rewrite Heq in B; rewrite B in *.
    + exact IH.
    + cbn [filter map fst snd List.length repeat]. rewrite Heq, Nat.eqb_refl.
      cbn [map snd]. now rewrite IH.
  - destruct (broken sv (response c)) eqn:B; [exact IH|].
    cbn [filter map fst]. apply Nat.eqb_neq in Hne. rewrite Hne. exact IH.
Qed.

Lemma received_sendLogToAll (message : string) (res : nat) (sv : Server) :
  received res (sendLogToAll message sv)
  = (received res sv
     ++ match broken sv res with
        | None => repeat (frame message) (registrations res sv)
        | Some _ => []
        end)%list.
Proof.
  unfold received.
  destruct (sendLogToAll_effect message sv) as (_ & _ & Hw & _).
  rewrite Hw, filter_app, map_app, received_delivered. reflexivity.
Qed.

(** Lines published one after the other reach an observer in the order
    they were published, each once per registration of its response, and
    none is lost while its connection takes the writes. *)
Theorem published_in_order (messages : list string) (res : nat) (sv : Server) :
  broken sv res = None ->
  received res (fold_left (fun sv0 m => sendLogToAll m sv0) messages sv)
  = (received res sv
     ++ flat_map (fun m => repeat (frame m) (registrations res sv)) messages)%list.
Proof.
  revert sv. induction messages as [|m messages IH]; intros sv Hok; simpl.
  - now rewrite app_nil_r.
  - destruct (sendLogToAll_effect m sv) as (Hc & Hb & _ & _).
    rewrite IH by (now rewrite Hb).
    unfold registrations at 1. rewrite Hc. fold (registrations res sv).
    rewrite received_sendLogToAll, Hok, <- app_assoc. reflexivity.
Qed.

Lemma remove_first_absent (clientId : string) (l : list Client) :
  Forall (fun c => id c <> clientId) l -> remove_first clientId l = l.
Proof.
  induction 1 as [|c l Hc _ IH]; simpl; [reflexivity|].
  destruct (String.eqb_spec (id c) clientId); [contradiction | now rewrite IH].
Qed.

Lemma remove_first_at (clientId : string) (before : list Client) :
  forall c after,
    id c = clientId ->
    Forall (fun c0 => id c0 <> clientId) before ->
    remove_first clientId (before ++ c :: after) = (before ++ after)%list.
Proof.
  induction before as [|b before IH]; intros c after Hid Hbefore; simpl.
  - rewrite Hid, String.eqb_refl. reflexivity.
  - inversion Hbefore; subst.
    destruct (String.eqb_spec (id b) (id c)); [contradiction|].
    now rewrite IH.
Qed.

Lemma remove_first_gone (clientId : string) (l : list Client) :
  NoDup (map id l) ->
  Forall (fun c => id c <> clientId) (remove_first clientId l).
Proof.
  induction l as [|c l IH]; intros Hnd; simpl; [constructor|].
  inversion Hnd as [|x xs Hnotin Hnd']; subst.
  destruct (String.eqb_spec (id c) clientId) as [Heq|Hne].
  - apply Forall_forall. intros c0 Hin Hc0. apply Hnotin.
    rewrite Heq, <- Hc0. now apply in_map.
  - constructor; [exact Hne | now apply IH].
Qed.

Lemma remove_first_subset (clientId : string) (l : list Client) (c : Client) :
  In c (remove_first clientId l) -> In c l.
Proof.
  induction l as [|c0 l IH]; simpl; [tauto|].
  destruct (String.eqb (id c0) clientId); simpl; [tauto|].
  intros [->|H]; [now left | right; now apply IH].
Qed.

(** The [close] handler drops the first registration that carries the id,
    whichever connection it belongs to, and keeps the others in order; for
    an id that is not registered it changes nothing, so closing twice is
    closing once when ids are not shared. *)
Theorem on_close_drops_first (clientId : string) (sv : Server) :
  (forall before c after,
      clients sv = (before ++ c :: after)%list ->
      id c = clientId ->
      Forall (fun c0 => id c0 <> clientId) before ->
      clients (on_close clientId sv) = (before ++ after)%list) /\
  (Forall (fun c => id c <> clientId) (clients sv) ->
   on_close clientId sv = sv) /\
  (NoDup (map id (clients sv)) ->
   Forall (fun c => id c <> clientId) (clients (on_close clientId sv)) /\
   on_close clientId (on_close clientId sv) = on_close clientId sv).
Proof.
  split; [|split].
  - intros before c after Hclients Hid Hbefore. simpl.
    rewrite Hclients. now apply remove_first_at.
  - intros Habsent. unfold on_close. rewrite remove_first_absent by exact Habsent.
    destruct sv; reflexivity.
  - intros Hnd. split; [now apply remove_first_gone|].
    unfold on_close. simpl.
    rewrite (remove_first_absent clientId (remove_first _ _));
      [reflexivity | now apply remove_first_gone].
Qed.

(** After its [close] handler ran, an observer with an id of its own is
    sent nothing more. *)
Theorem closed_observer_receives_nothing
        (clientId message : string) (res : nat) (sv : Server) :
  NoDup (map id (clients sv)) ->
  (forall c, In c (clients sv) -> response c = res -> id c = clientId) ->
  received res (sendLogToAll message (on_close clientId sv)) = received res sv.
Proof.
  intros Hnd Hown.
  rewrite received_sendLogToAll.
  assert (Hnone : registrations res (on_close clientId sv) = 0%nat).
  { unfold registrations, on_close. simpl.
    pose proof (remove_first_gone clientId (clients sv) Hnd) as Hgone.
    pose proof (remove_first_subset clientId (clients sv)) as Hsub.
    induction (remove_first clientId (clients sv)) as [|c l IH]; [reflexivity|].
    inversion Hgone as [|x xs Hc Hrest]; subst. simpl.
    destruct (Nat.eqb_spec (response c) res) as [Heq|Hne].
    - exfalso. apply Hc. apply Hown; [apply Hsub; now left | exact Heq].
    - apply IH; [assumption | intros c0 Hc0; apply Hsub; now right]. }
  rewrite Hnone. simpl. destruct (broken _ res); now rewrite app_nil_r.
Qed.

(** A new observer is greeted, registered last, and sent nothing of what
    was published before; the next line published reaches it. *)
Theorem connect_then_publish (now message : string) (res : nat) (sv sv' : Server) :
  connect now res sv = inr sv' ->
  clients sv' = (clients sv ++ [{| id := now; response := res |}])%list /\
  received res sv' = (received res sv ++ [frame "Connected to log stream"])%list /\
  stdout sv' = stdout sv /\
  received res (sendLogToAll message sv')
  = (received res sv ++ frame "Connected to log stream"
     :: repeat (frame message) (S (registrations res sv)))%list.
Proof.
  unfold connect. destruct (broken sv res) eqn:B; [discriminate|].
  intros H. inversion H; subst; clear H.
  assert (Hgreeted : received res
                       {| clients := clients sv ++ [{| id := now; response := res |}];
                          broken := broken sv; stdout := stdout sv;
                          wire := wire sv ++ [(res, frame "Connected to log stream")] |}
                     = (received res sv ++ [frame "Connected to log stream"])%list).
  { unfold received. simpl. rewrite filter_app, map_app. simpl.
    now rewrite Nat.eqb_refl. }
  repeat split; try exact Hgreeted.
  rewrite received_sendLogToAll, Hgreeted. simpl. rewrite B.
  unfold registrations. simpl. rewrite filter_app, length_app. simpl.
  rewrite Nat.eqb_refl. simpl. rewrite Nat.add_1_r, <- app_assoc. reflexivity.
Qed.

End LogStreamFacts.

Lemma published_in_order_witness :
  LogStream.received 1
    (fold_left (fun sv0 m => LogStream.sendLogToAll m sv0)
               ["Starting staking operation..."; "Staking transaction confirmed"]
               two_observers)
  = (LogStream.received 1 two_observers
     ++ flat_map (fun m => repeat (LogStream.frame m)
                             (LogStream.registrations 1 two_observers))
          ["Starting staking operation..."; "Staking transaction confirmed"])%list.
Proof.
  apply (published_in_order
           ["Starting staking operation..."; "Staking transaction confirmed"]
           1%nat two_observers).
  reflexivity.
Defined.

Lemma closed_observer_receives_nothing_witness :
  LogStream.received 1
    (LogStream.sendLogToAll "Staking transaction confirmed"
       (LogStream.on_close "1700000000000" two_observers))
  = LogStream.received 1 two_observers.
Proof.
  apply (closed_observer_receives_nothing
           "1700000000000" "Staking transaction confirmed" 1%nat two_observers).
  - simpl. repeat constructor; simpl; intuition discriminate.
  - intros c [<-|[<-|[]]]; simpl; intros Hres;
      [reflexivity | discriminate Hres].
Defined.

Lemma connect_then_publish_witness :
  exists sv',
    LogStream.connect "1700000000002" 3 two_observers = inr sv' /\
    LogStream.received 3 (LogStream.sendLogToAll "Staking transaction confirmed" sv')
    = [LogStream.frame "Connected to log stream";
       LogStream.frame "Staking transaction confirmed"].
Proof.
  destruct (LogStream.connect "1700000000002" 3 two_observers)
    as [e|sv'] eqn:H.
  - vm_compute in H. discriminate.
  - exists sv'. split; [reflexivity|].
    destruct (connect_then_publish "1700000000002"
                "Staking transaction confirmed" 3%nat two_observers sv' H)
      as (_ & _ & _ & Hreceived).
    rewrite Hreceived. reflexivity.
Defined.

(** ** More on the retry executor *)

Section RetryOutcome.

Context {env : Environment}.

Lemma retry_loop_outcome (c : call) (n : nat) :
  forall fuel i delay lastError s r s',
    (i + fuel = n)%nat ->
    retry_loop (invoke c) n fuel i delay lastError s = (r, s') ->
    exists errors,
      trace s' = (trace s ++ map (fun e => Ev c (inl e)) errors
                  ++ match r with
                     | inr v => [Ev c (inr v)]
                     | inl _ => []
                     end)%list /\
      sleeps s' = (sleeps s ++ backoff delay (pred (attempts errors r)))%list /\
      match r with
      | inr _ => (List.length errors < fuel)%nat
      | inl e => List.length errors = fuel /\ e = last errors lastError
      end.
Proof.
  induction fuel as [|fuel IH]; intros i delay lastError s r s' Hi H; simpl in H.
  - inversion H; subst. exists []. simpl. now rewrite !app_nil_r.
  - assert (Hlt : (i <? n)%nat = true) by (apply Nat.ltb_lt; lia).
    rewrite Hlt in H. unfold try_catch in H.
    destruct (invoke c s) as [[e|v] s1] eqn:E; apply invoke_effect in E;
      destruct E as (Et & _ & Es & _).
    + unfold bind, console_log, sleep in H; simpl in H.
      destruct (i <? n - 1)%nat eqn:Hlast; simpl in H.
      * apply Nat.ltb_lt in Hlast.
        apply IH in H; [|lia]. destruct H as (errors & Ht & Hs & Hr).
        simpl in Ht, Hs. exists (e :: errors).
        assert (Hsome : attempts errors r = S (pred (attempts errors r))).
        { destruct r as [e'|v]; simpl in *; [|reflexivity].
          destruct Hr as [Hlen _]. rewrite Hlen. lia. }
        split; [|split].
        -- rewrite Ht, Et, <- app_assoc. reflexivity.
        -- rewrite Hs, Es, <- app_assoc.
           replace (pred (attempts (e :: errors) r)) with (attempts errors r)
             by (destruct r; reflexivity).
           rewrite Hsome. reflexivity.
        -- destruct r as [e'|v];
             [destruct Hr as [Hlen ->]; split;
              [simpl; lia | symmetry; apply last_cons]
             | simpl in *; lia].
      * apply Nat.ltb_ge in Hlast. rewrite retry_loop_done in H by lia.
        inversion H; subst. exists [e]. simpl.
        rewrite Et, Es, app_nil_r. repeat split. lia.
    + inversion H; subst. exists []. simpl. rewrite Et, Es, app_nil_r.
      repeat split. lia.
Qed.

(** [executeWithRetry] calls the operation until it resolves, at most
    [maxRetries] times: when it returns a value, that value is what the last
    call resolved to, every call before was rejected and fewer than
    [maxRetries] were; when it throws, exactly [maxRetries] calls were
    rejected and what is thrown is the last error ([undefined] when
    [maxRetries] is 0 and nothing was called). *)
Theorem executeWithRetry_outcome (c : call) (n : nat) (delay : Q) (s : St) :
  let run := executeWithRetry (invoke c) n delay s in
  exists errors,
    trace (snd run)
    = (trace s ++ map (fun e => Ev c (inl e)) errors
       ++ match fst run with
          | inr v => [Ev c (inr v)]
          | inl _ => []
          end)%list /\
    match fst run with
    | inr _ => (List.length errors < n)%nat
    | inl e => List.length errors = n /\ e = last errors Undefined
    end.
Proof.
  intros run. subst run.
  destruct (executeWithRetry (invoke c) n delay s) as [r s'] eqn:H.
  cbn [fst snd].
  apply retry_loop_outcome in H; [|reflexivity].
  destruct H as (errors & Ht & _ & Hr). now exists errors.
Qed.

(** The executor waits between two attempts and nowhere else: a run that
    made [k] calls waited [k - 1] times, for the first [k - 1] backoff
    delays. *)
Theorem executeWithRetry_waits_between_attempts
        (c : call) (n : nat) (delay : Q) (s : St) :
  let run := executeWithRetry (invoke c) n delay s in
  exists made,
    trace (snd run) = (trace s ++ made)%list /\
    sleeps (snd run)
    = (sleeps s ++ backoff delay (pred (List.length made)))%list.
Proof.
  intros run. subst run.
  destruct (executeWithRetry (invoke c) n delay s) as [r s'] eqn:H.
  cbn [fst snd].
  apply retry_loop_outcome in H; [|reflexivity].
  destruct H as (errors & Ht & Hs & _).
  eexists. split; [exact Ht|]. rewrite Hs.
  rewrite length_app, length_map. destruct r; simpl;
    [now rewrite Nat.add_0_r | now rewrite Nat.add_1_r].
Qed.

End RetryOutcome.

(** ** More on the transfer pipeline *)

(** Splits a membership in a spelled-out list of calls into its cases. *)
Ltac cases_of_call H :=
  simpl in H;
  repeat match type of H with
         | _ \/ _ => destruct H as [H|H]
         | False => destruct H
         end;
  try discriminate H; try (inversion H; subst; clear H).

Section TransferPhases.

Context {env : Environment}.

(** [tokenTransfer] makes the five bridge calls in the order of the phases,
    each at most once: its calls are the first [k] of them.  A rejected call
    is the only rejected one and the last call made, and when it returns it
    has made all five and returns what initiate resolved to. *)
Theorem tokenTransfer_phases
        (token : TokenId) (units : Z) (source destination : SignerStuff)
        (automatic : bool) (w : W) :
  let run := tokenTransfer token units source destination automatic (init w) in
  exists k,
    calls (trace (snd run))
    = firstn k (transfer_calls token units source destination automatic) /\
    (forall c e,
        In (c, e) (failures (trace (snd run))) ->
        failures (trace (snd run)) = [(c, e)] /\
        nth_error (transfer_calls token units source destination automatic)
                  (pred k) = Some c) /\
    (forall txids,
        fst run = inr txids ->
        k = 5%nat /\ first read_initiate (trace (snd run)) = Some txids).
Proof.
  intros run. subst run.
  destruct (tokenTransfer token units source destination automatic (init w))
    as [r s'] eqn:H.
  cbn [fst snd]. unfold tokenTransfer in H.
  repeat step H; finish H.
  all: first
         [ exists 1%nat; split; [reflexivity|]
         | exists 2%nat; split; [reflexivity|]
         | exists 3%nat; split; [reflexivity|]
         | exists 4%nat; split; [reflexivity|]
         | exists 5%nat; split; [reflexivity|] ].
  all: split;
    [ intros c e0 Hin; cases_of_In; try discriminate; split; reflexivity
    | intros txids Heq; try discriminate Heq; inversion Heq; subst;
      split; reflexivity ].
Qed.

(** How [executeCrossChainTransfer] ends.  It throws what one of its
    set-up calls (bridge connection, the two signers, the token decimals)
    was rejected with, and then no call of the transfer phase was made; or,
    under the redirect of [server.ts], the [TypeError] of [JSON.stringify]
    for what a call of the transfer phase, the last call made, was rejected
    with.  When it returns, the result carries the addresses the two
    signers resolved to and the amount text as given, and after a run
    without any rejected call that reached the completion call also the
    first transaction id that initiate resolved to. *)
Theorem transfer_result (amt : string) (w : W) :
  let run := executeCrossChainTransfer amt (init w) in
  let tr := trace (snd run) in
  match fst run with
  | inl e =>
      (Forall (fun ev => transfer_phase (call_of ev) = false) tr /\
       exists c earlier, tr = (earlier ++ [Ev c (inl e)])%list) \/
      (exists c caught earlier,
          transfer_phase c = true /\
          tr = (earlier ++ [Ev c (inl caught)])%list /\
          log_refusal caught = Some e)
  | inr result =>
      amount result = amt /\
      (exists source destination,
          first (read_signer Solana) tr = Some source /\
          first (read_signer Sepolia) tr = Some destination /\
          sourceAddress result = ss_address source /\
          destinationAddress result = ss_address destination) /\
      (forall signer,
          failures tr = [] ->
          In (CCompleteTransfer signer) (calls tr) ->
          exists txids,
            first read_initiate tr = Some txids /\
            wormholeHash result = nth_error txids 0)
  end.
Proof.
  intros run tr. subst tr run.
  destruct (executeCrossChainTransfer amt (init w)) as [r s'] eqn:H.
  cbn [fst snd]. unfold executeCrossChainTransfer, tokenTransfer in H.
  repeat step H; finish H.
  all: try (left; split; [repeat constructor|];
            match goal with
            | |- context [Ev ?c (inl _)] => exists c
            end;
            first [ exists []; reflexivity
                  | eexists [_]; reflexivity
                  | eexists [_; _]; reflexivity
                  | eexists [_; _; _]; reflexivity ]).
  all: try (right;
            match goal with
            | |- context [Ev ?c (inl (ErrorWith ?n ?m ?why))] =>
                exists c, (ErrorWith n m why)
            end;
            let close :=
              (split; [reflexivity|]); (split; [reflexivity|]);
              unfold log_refusal; simpl; console_known; reflexivity in
            first [ exists []; close | eexists [_]; close
                  | eexists [_; _]; close | eexists [_; _; _]; close
                  | eexists [_; _; _; _]; close
                  | eexists [_; _; _; _; _]; close
                  | eexists [_; _; _; _; _; _]; close
                  | eexists [_; _; _; _; _; _; _]; close
                  | eexists [_; _; _; _; _; _; _; _]; close
                  | eexists [_; _; _; _; _; _; _; _; _]; close ]).
  all: split; [reflexivity|];
    (split; [do 2 eexists; repeat split; reflexivity|]);
    intros signer Hclean Hin; try discriminate Hclean;
    cases_of_call Hin; eexists; split; reflexivity.
Qed.

(** What [executeCrossChainTransfer] asks of the bridge: a transfer of the
    native token of Solana, with manual completion, of the units the SDK
    converted the amount text to with the token's decimals, from the address
    of the Solana signer to the address of the Sepolia signer. *)
Theorem transfer_request
        (amt : string) (w : W) (r : thrown + TransferResult) (s' : St)
        (token : TokenId) (units : Z) (src dst : string) (automatic : bool) :
  executeCrossChainTransfer amt (init w) = (r, s') ->
  In (CTokenTransfer token units src dst automatic) (calls (trace s')) ->
  token = tokenId Solana "native" /\ automatic = false /\
  exists source destination decimals,
    first (read_signer Solana) (trace s') = Some source /\
    first (read_signer Sepolia) (trace s') = Some destination /\
    first read_token_decimals (trace s') = Some decimals /\
    first read_units (trace s') = Some (amt, decimals, units) /\
    src = ss_address source /\ dst = ss_address destination.
Proof.
  intros H Hin. unfold executeCrossChainTransfer, tokenTransfer in H.
  repeat step H; finish H; cases_of_call Hin.
  all: repeat split; do 3 eexists; repeat split; reflexivity.
Qed.

(** The [tokenTransfer] of [native-transfer.ts] and the one of
    [cross-chain-staking.ts] make the same calls and leave the same world;
    whenever the first returns so does the second, whenever the second
    throws so does the first, and they differ only when the completion call
    is rejected with "transfer already completed", which the first throws
    and the second takes as done. *)
Theorem native_tokenTransfer_agrees
        (token : TokenId) (units : Z) (source destination : SignerStuff)
        (automatic : bool) (s : St) :
  let native := native_tokenTransfer token units source destination automatic s in
  let staking := tokenTransfer token units source destination automatic s in
  trace (snd native) = trace (snd staking) /\
  world (snd native) = world (snd staking) /\
  (fst native = inr tt -> exists txids, fst staking = inr txids) /\
  (forall e, fst staking = inl e -> exists e', fst native = inl e') /\
  (forall e txids,
      fst native = inl e -> fst staking = inr txids ->
      includes "transfer already completed" (String_of e) = true /\
      exists earlier,
        trace (snd native)
        = (earlier ++ [Ev (CCompleteTransfer (ss_signer destination)) (inl e)])%list).
Proof.
  cbv zeta.
  unfold native_tokenTransfer, tokenTransfer, bind, try_catch, invoke,
    console_log, ret, throw, toString.
  simpl.
  repeat (match goal with
          | |- context [respond ?x ?c] =>
              destruct (respond x c) as [[?e|?v] ?w']
          | |- context [if ?b then _ else _] => destruct b eqn:?
          | |- context [match ?x with Undefined => _ | _ => _ end] => destruct x
          end; simpl).
  all: repeat split; try reflexivity; try (intros; discriminate);
    try (intros; eexists; reflexivity).
  all: match goal with
       | He : inl _ = inl _ |- _ => inversion He; subst
       end;
    first [ assumption | eexists; reflexivity ].
Qed.

End TransferPhases.

Lemma transfer_request_witness :
  native_sol = tokenId Solana "native" /\ false = false /\
  exists source destination decimals,
    first (read_signer Solana) (trace (snd already_completed_run)) = Some source /\
    first (read_signer Sepolia) (trace (snd already_completed_run))
    = Some destination /\
    first read_token_decimals (trace (snd already_completed_run))
    = Some decimals /\
    first read_units (trace (snd already_completed_run))
    = Some ("0.01", decimals, 10000000) /\
    ss_address solana_signer = ss_address source /\
    ss_address sepolia_signer = ss_address destination.
Proof.
  apply (transfer_request (env := scripted already_completed) "0.01" 0%nat
           (fst already_completed_run) (snd already_completed_run)
           native_sol 10000000
           (ss_address solana_signer) (ss_address sepolia_signer) false).
  - exact (surjective_pairing _).
  - vm_compute. find_In.
Defined.

(** ** The ledger operations and the handlers *)

Section RetryCounting.

Context {env : Environment}.

Lemma retry_outcome (c : call) (s s' : St) (r : thrown + resp c) :
  retry (invoke c) s = (r, s') ->
  exists errors,
    trace s' = (trace s ++ map (fun e => Ev c (inl e)) errors
                ++ match r with
                   | inr v => [Ev c (inr v)]
                   | inl _ => []
                   end)%list /\
    sleeps s'
    = (sleeps s ++ backoff (3000 # 1) (pred (attempts errors r)))%list /\
    match r with
    | inr _ => (List.length errors < 5)%nat
    | inl e => List.length errors = 5%nat /\ last errors Undefined = e
    end.
Proof.
  intros H. apply retry_loop_outcome in H; [|reflexivity].
  destruct H as (errors & Ht & Hs & Hr). exists errors.
  split; [exact Ht|]. split; [exact Hs|].
  destruct r; [destruct Hr; split; congruence | exact Hr].
Qed.

End RetryCounting.

(** As [step], and keeps how many attempts a retried call took. *)
Ltac count H :=
  unfold bind, try_catch, console_log, console_error, sleep, ret, throw,
    toString, message_of, new_wallet in H;
  simpl in H;
  first
    [ match type of H with
      | context [if ?b then _ else _] =>
          let Hb := fresh "Hb" in destruct b eqn:Hb
      end
    | match type of H with
      | context [match @invalid_key ?en with Some _ => _ | None => _ end] =>
          let Hk := fresh "Hk" in destruct (@invalid_key en) eqn:Hk
      end
    | match type of H with
      | context [match ?x with Undefined => _ | _ => _ end] => destruct x
      end
    | match type of H with
      | context [match ?p with (_, _) => _ end] => is_var p; destruct p
      end
    | match type of H with
      | context [@retry ?en ?A (invoke ?c) ?st] =>
          let s1 := fresh "s" in
          let E := fresh "E" in
          let Ht := fresh "Ht" in
          let Hn := fresh "Hn" in
          let Hw := fresh "Hw" in
          let errors := fresh "errors" in
          destruct (@retry en A (invoke c) st) as [[?e|?v] s1] eqn:E;
          apply (retry_outcome c) in E; simpl in E;
          destruct E as (errors & Ht & Hw & Hn)
      end
    | match type of H with
      | context [invoke ?c ?st] =>
          let s1 := fresh "s" in
          let E := fresh "E" in
          let Ht := fresh "Ht" in
          let Hl := fresh "Hl" in
          let Hw := fresh "Hw" in
          destruct (invoke c st) as [[?e|?v] s1] eqn:E;
          apply invoke_effect in E; simpl in E; destruct E as (Ht & Hl & Hw & _)
      end ].

(** As [finish], and spells out the waits as well. *)
Ltac settle H :=
  unfold bind, try_catch, console_log, console_error, sleep, ret, throw in H;
  simpl in H; inversion H; subst; clear H; simpl in *;
  repeat match goal with
         | Ht : trace ?s = _ |- _ => rewrite Ht in *; clear Ht
         | Hl : logs ?s = _ |- _ => rewrite Hl in *; clear Hl
         | Hw : sleeps ?s = _ |- _ => rewrite Hw in *; clear Hw
         end;
  simpl in *.

(** Finds an event in a spelled-out trace. *)
Ltac find_leaf := first [ reflexivity | left; find_leaf | right; find_leaf ].
Ltac in_trace := rewrite ?in_app_iff; simpl; find_leaf.

(** Reads a spelled-out trace. *)
Ltac read_trace :=
  rewrite ?first_app; rewrite ?first_rejected by (intros; reflexivity); simpl.

(** A test holds of every call of a spelled-out trace. *)
Ltac every_call :=
  repeat first [ rewrite Forall_app | rewrite Forall_cons_iff ]; repeat split;
  try (apply Forall_rejected; intros; simpl; auto);
  repeat first [ reflexivity | left; reflexivity | right; reflexivity
               | constructor ].

Section LedgerOperations.

Context {env : Environment}.

Lemma gave_up_with_intro (a : list event) (c : call) (errors : list thrown) :
  List.length errors = 5%nat ->
  gave_up_with (last errors Undefined)
               (a ++ map (fun x => Ev c (inl x)) errors ++ []).
Proof.
  intros Hn. exists c, a, errors. now rewrite app_nil_r.
Qed.

(** How [executeStaking] ends.  It returns a position only after a stake of
    the positive balance read has resolved to a transaction and a [wait()]
    on it has resolved, and the position is the one then read, formatted
    with the decimals read; it returns nothing, without approving or
    staking, exactly when the balance read is not positive; and what it
    throws is the error of a missing key or the [TypeError] of a key that
    is not a private key, before any call, or the last error of a call that
    the retry executor gave up on. *)
Theorem executeStaking_outcome (userAddress : string) (w : W) :
  let run := executeStaking userAddress (init w) in
  let tr := trace (snd run) in
  match fst run with
  | inr (Some p) =>
      exists staked loaned decimals tx,
        first read_stake tr = Some (staked, loaned) /\
        first read_decimals tr = Some decimals /\
        p = {| stakedAmount := formatUnits staked decimals;
               loanedAmount := formatUnits loaned 18 |} /\
        0 < balance_read tr /\
        In (Ev (CStake STAKING_CONTRACT_ADDRESS (balance_read tr)) (inr tx)) tr /\
        In (Ev (CWait tx) (inr tt)) tr
  | inr None =>
      balance_read tr <= 0 /\ no_approve_no_stake tr
  | inl e =>
      (falsy ETH_PRIVATE_KEY = true /\ e = missing_key /\ tr = []) \/
      key_refused e tr \/
      gave_up_with e tr
  end.
Proof.
  intros run tr. subst tr run.
  destruct (executeStaking userAddress (init w)) as [r s'] eqn:H.
  cbn [fst snd]. unfold executeStaking in H.
  repeat count H; finish H.
  all: unfold balance_read, no_approve_no_stake.
  all: try (right; left; eexists; repeat split; eassumption).
  all: try (right; right;
            match goal with
            | Hn : _ /\ last _ _ = _ |- _ => destruct Hn as [Hlen <-]
            end;
            first [ apply gave_up_with_intro
                  | apply (gave_up_with_intro []) ]; exact Hlen).
  all: try (left; repeat split; reflexivity).
  all: read_trace.
  all: repeat match goal with u : unit |- _ => destruct u end.
  all: try (split; [apply Z.ltb_ge; assumption | every_call]).
  all: do 4 eexists; repeat (split; [reflexivity|]);
    (split; [apply Z.ltb_lt; assumption|]); split; in_trace.
Qed.

(** Every call a run of [executeStaking] makes is a read of the minting
    permission, of the wrapped-SOL balance of the address passed in, of the
    decimals or of that address's position, a [wait()], the grant of the
    minting permission on the loan token to the staking contract, the
    approval of the staking contract for exactly the wrapped-SOL balance
    read, or the stake of exactly that balance. *)
Theorem executeStaking_calls (userAddress : string) (w : W) :
  let tr := trace (snd (executeStaking userAddress (init w))) in
  Forall (fun ev => staking_call userAddress (balance_read tr) (call_of ev)) tr.
Proof.
  intros tr. subst tr.
  destruct (executeStaking userAddress (init w)) as [r s'] eqn:H.
  unfold executeStaking in H.
  repeat step H; finish H.
  all: unfold balance_read; read_trace.
  all: every_call.
Qed.

Lemma preceded_by_none (P : list event -> Prop) (dependent : call -> bool)
      (tr : list event) :
  Forall (fun ev => dependent (call_of ev) = false) tr ->
  preceded_by P dependent tr.
Proof.
  intros Hnone before c outcome after -> Hdep.
  apply Forall_app in Hnone. destruct Hnone as [_ Hnone].
  inversion Hnone; subst. simpl in *. congruence.
Qed.

Lemma grant_confirmed_app (a b : list event) :
  grant_confirmed a -> grant_confirmed (a ++ b).
Proof.
  intros (tx & before & between & after & ->).
  exists tx, before, between, (after ++ b)%list.
  rewrite <- app_assoc. simpl. rewrite <- app_assoc. reflexivity.
Qed.

Lemma grant_confirmed_intro (pre f1 f2 : list event) (tx : Tx) :
  grant_confirmed
    ((pre ++ f1 ++ [Ev (CAddMinter LOAN_TOKEN_ADDRESS STAKING_CONTRACT_ADDRESS)
                       (inr tx)])
     ++ f2 ++ [Ev (CWait tx) (inr tt)]).
Proof.
  exists tx, (pre ++ f1)%list, f2, [].
  rewrite <- !app_assoc. reflexivity.
Qed.

Lemma preceded_by_grant_app (dependent : call -> bool) (a b : list event) :
  preceded_by grant_confirmed dependent a ->
  grant_confirmed a \/ Forall (fun ev => dependent (call_of ev) = false) b ->
  preceded_by grant_confirmed dependent (a ++ b).
Proof.
  intros Ha Hb before c outcome after Heq Hdep.
  apply app_eq_app in Heq. destruct Heq as (l & [[-> Hl] | [-> Hl]]).
  - destruct l as [|x l].
    + simpl in Hl. subst b. rewrite app_nil_r in *.
      destruct Hb as [Hb|Hb]; [exact Hb|].
      inversion Hb; subst. simpl in *. congruence.
    + simpl in Hl. inversion Hl; subst.
      eapply Ha; [reflexivity | exact Hdep].
  - destruct Hb as [Hb|Hb]; [now apply grant_confirmed_app|].
    rewrite Hl in Hb. apply Forall_app in Hb. destruct Hb as [_ Hb].
    inversion Hb; subst. simpl in *. congruence.
Qed.

(** When the staking contract is read not to be a minter, [executeStaking]
    reads the balance, approves and stakes only after the grant of the
    minting permission has resolved to a transaction and a [wait()] on that
    transaction has resolved; when it is read to be one, or the read fails,
    no grant is asked for. *)
Theorem minter_granted_before_staking (userAddress : string) (w : W) :
  let tr := trace (snd (executeStaking userAddress (init w))) in
  match first read_minters tr with
  | Some false => preceded_by grant_confirmed after_minter_check tr
  | _ => Forall (fun ev => is_add_minter (call_of ev) = false) tr
  end.
Proof.
  intros tr. subst tr.
  destruct (executeStaking userAddress (init w)) as [r s'] eqn:H.
  unfold executeStaking in H.
  repeat step H; finish H.
  all: read_trace.
  all: repeat match goal with u : unit |- _ => destruct u end.
  all: try solve [every_call].
  all: try (destruct v; try discriminate).
  all: try solve [every_call].
  all: repeat first
         [ apply preceded_by_none; solve [none_dependent]
         | apply preceded_by_grant_app;
           [| first [ right; solve [none_dependent]
                    | left;
                      solve [repeat first [ apply grant_confirmed_intro
                                          | apply grant_confirmed_app ]] ] ] ].
Qed.

(** Every call a run of [executeUnstake] makes is a read of the wallet's
    position, of the decimals or of the wallet's balance of the loan token
    or of wrapped SOL, a [wait()], the approval of the staking contract for
    exactly the loan read first, or the unstake of exactly the stake read
    first. *)
Theorem executeUnstake_calls (w : W) :
  let tr := trace (snd (executeUnstake (init w))) in
  Forall (fun ev => unstaking_call wallet_address
                      (fst (position_read tr)) (snd (position_read tr))
                      (call_of ev)) tr.
Proof.
  intros tr. subst tr.
  destruct (executeUnstake (init w)) as [r s'] eqn:H.
  unfold executeUnstake in H.
  repeat step H; finish H.
  all: unfold position_read; read_trace.
  all: every_call.
Qed.

(** How [executeUnstake] ends.  It returns a result only after an unstake
    of the whole positive stake read first has resolved to a transaction
    and a [wait()] on it has resolved, with a loan-token balance read that
    covers the loan; the amount withdrawn is that stake, and the new
    position is what the last call, a re-read, resolved to.  It returns
    nothing, after reads only, exactly when the stake read is not positive.
    What it throws is the error of a missing key or the [TypeError] of a
    key that is not a private key, before any call, the last error of a
    call that the retry executor gave up on, or the error of an
    insufficient loan-token balance. *)
Theorem executeUnstake_outcome (w : W) :
  let run := executeUnstake (init w) in
  let tr := trace (snd run) in
  match fst run with
  | inr (Some u) =>
      exists staked loaned decimals loanBalance tx newStaked newLoaned earlier,
        first read_stake tr = Some (staked, loaned) /\
        first read_decimals tr = Some decimals /\
        first (read_balance LOAN_TOKEN_ADDRESS) tr = Some loanBalance /\
        0 < staked /\ loaned <= loanBalance /\
        In (Ev (CUnstake STAKING_CONTRACT_ADDRESS staked) (inr tx)) tr /\
        In (Ev (CWait tx) (inr tt)) tr /\
        tr = (earlier ++ [Ev (CGetUserStake STAKING_CONTRACT_ADDRESS wallet_address)
                             (inr (newStaked, newLoaned))])%list /\
        u = {| withdrawnAmount := formatUnits staked decimals;
               newStakedAmount := formatUnits newStaked decimals;
               newLoanedAmount := formatUnits newLoaned 18 |}
  | inr None =>
      fst (position_read tr) <= 0 /\ only_views tr
  | inl e =>
      (falsy ETH_PRIVATE_KEY = true /\ e = missing_key /\ tr = []) \/
      key_refused e tr \/
      gave_up_with e tr \/
      exists loanBalance,
        first (read_balance LOAN_TOKEN_ADDRESS) tr = Some loanBalance /\
        loanBalance < snd (position_read tr) /\
        e = insufficient_loan_balance (snd (position_read tr)) loanBalance
  end.
Proof.
  intros run tr. subst tr run.
  destruct (executeUnstake (init w)) as [r s'] eqn:H.
  cbn [fst snd]. unfold executeUnstake in H.
  repeat count H; finish H.
  all: unfold position_read, only_views.
  all: try (right; left; eexists; repeat split; eassumption).
  all: try (right; right; left;
            match goal with
            | Hn : _ /\ last _ _ = _ |- _ => destruct Hn as [Hlen <-]
            end;
            first [ apply gave_up_with_intro
                  | apply (gave_up_with_intro []) ]; exact Hlen).
  all: try (left; repeat split; reflexivity).
  all: read_trace.
  all: repeat match goal with u : unit |- _ => destruct u end.
  all: try (split; [apply Z.leb_le; assumption | every_call]).
  all: try (right; right; right; eexists; split; [reflexivity|];
            split; [apply Z.ltb_lt; assumption | reflexivity]).
  all: do 8 eexists; repeat (split; [reflexivity|]).
  all: split; [apply Z.leb_gt; assumption|].
  all: split; [apply Z.ltb_ge; assumption|].
  all: split; [in_trace|]. 
  all: split; [in_trace|].
  all: split; [exact (app_assoc _ _ _) | reflexivity].
Qed.

(** [getStakeInfo] only reads the ledger.  What it returns is the position
    read, formatted with the decimals read; what it throws is the error of a
    missing key or the [TypeError] of a key that is not a private key,
    before any call, or the last error of a read that the retry executor
    gave up on. *)
Theorem getStakeInfo_outcome (w : W) :
  let run := getStakeInfo (init w) in
  let tr := trace (snd run) in
  only_views tr /\
  match fst run with
  | inr p =>
      exists staked loaned decimals,
        first read_stake tr = Some (staked, loaned) /\
        first read_decimals tr = Some decimals /\
        p = {| stakedAmount := formatUnits staked decimals;
               loanedAmount := formatUnits loaned 18 |}
  | inl e =>
      (falsy ETH_PRIVATE_KEY = true /\ e = missing_key /\ tr = []) \/
      key_refused e tr \/
      gave_up_with e tr
  end.
Proof.
  intros run tr. subst tr run.
  destruct (getStakeInfo (init w)) as [r s'] eqn:H.
  cbn [fst snd]. unfold getStakeInfo in H.
  repeat count H; finish H.
  all: unfold only_views; (split; [every_call|]).
  all: try (right; left; eexists; repeat split; eassumption).
  all: try (right; right;
            match goal with
            | Hn : _ /\ last _ _ = _ |- _ => destruct Hn as [Hlen <-]
            end;
            first [ apply gave_up_with_intro
                  | apply (gave_up_with_intro []) ]; exact Hlen).
  all: try (left; repeat split; reflexivity).
  all: read_trace.
  all: do 3 eexists; repeat split; reflexivity.
Qed.

(** The replies of [POST /api/unstake].  200 is answered only after an
    unstake of the whole positive stake read has resolved and been
    confirmed, with that stake as the amount withdrawn; 400 only after a
    read of a stake that is not positive, and reads only; 500 carries the
    message of the error logged, or the fallback text when it has none.  The
    handler itself throws only when the error caught is [undefined]. *)
Theorem unstake_handler_reply (w : W) :
  let run := unstake_handler (init w) in
  let tr := trace (snd run) in
  match fst run with
  | inr (Unstake200 m withdrawn) =>
      m = "Unstaking operation completed successfully" /\
      0 < fst (position_read tr) /\
      exists decimals tx,
        first read_decimals tr = Some decimals /\
        withdrawn = formatUnits (fst (position_read tr)) decimals /\
        In (Ev (CUnstake STAKING_CONTRACT_ADDRESS (fst (position_read tr)))
               (inr tx)) tr /\
        In (Ev (CWait tx) (inr tt)) tr
  | inr (Unstake400 m) =>
      m = "No stakes to unstake" /\
      fst (position_read tr) <= 0 /\ only_views tr
  | inr (Unstake500 m) =>
      exists e,
        e <> Undefined /\
        m = message_or e "Error executing unstaking" /\
        In (Err, [PStr "API error:"; PThrown e]) (logs (snd run))
  | inl e =>
      e = message_of_undefined /\ gave_up_with Undefined tr
  end.
Proof.
  intros run tr. subst tr run.
  destruct (unstake_handler (init w)) as [r s'] eqn:H.
  cbn [fst snd]. unfold unstake_handler, executeUnstake in H.
  repeat count H; finish H.
  all: unfold position_read, only_views, message_of_undefined.
  all: repeat match goal with u : unit |- _ => destruct u end.
  all: try (eexists; (split; [|split; [|in_trace]]);
            [ discriminate
            | simpl;
              repeat match goal with
                     | Hm : String.eqb ?m "" = _
                       |- context [String.eqb ?m ""] => rewrite Hm
                     end;
              reflexivity ]).
  all: try (split; [reflexivity|];
            match goal with
            | Hn : _ /\ last _ _ = _ |- _ => destruct Hn as [Hlen <-]
            end;
            first [ apply gave_up_with_intro
                  | apply (gave_up_with_intro []) ]; exact Hlen).
  all: read_trace.
  all: try (split; [reflexivity|]; split;
            [apply Z.leb_le; assumption | every_call]).
  all: split; [reflexivity|]; split; [apply Z.leb_gt; assumption|].
  all: do 2 eexists; repeat (split; [reflexivity|]); split; in_trace.
Qed.

(** The replies of [GET /api/stake-info].  The handler only reads the
    ledger; 200 carries the position read, formatted with the decimals read;
    500 carries the message of the error logged, or the fallback text when
    it has none.  The handler itself throws only when the error caught is
    [undefined]. *)
Theorem stake_info_handler_reply (w : W) :
  let run := stake_info_handler (init w) in
  let tr := trace (snd run) in
  only_views tr /\
  match fst run with
  | inr (StakeInfo200 m p) =>
      m = "Staking status query successful" /\
      exists decimals,
        first read_decimals tr = Some decimals /\
        p = {| stakedAmount := formatUnits (fst (position_read tr)) decimals;
               loanedAmount := formatUnits (snd (position_read tr)) 18 |}
  | inr (StakeInfo500 m) =>
      exists e,
        e <> Undefined /\
        m = message_or e "Error querying staking status" /\
        In (Err, [PStr "API error:"; PThrown e]) (logs (snd run))
  | inl e =>
      e = message_of_undefined /\ gave_up_with Undefined tr
  end.
Proof.
  intros run tr. subst tr run.
  destruct (stake_info_handler (init w)) as [r s'] eqn:H.
  cbn [fst snd]. unfold stake_info_handler, getStakeInfo in H.
  repeat count H; finish H.
  all: unfold position_read, only_views, message_of_undefined.
  all: (split; [every_call|]).
  all: try (eexists; (split; [|split; [|in_trace]]);
            [ discriminate
            | simpl;
              repeat match goal with
                     | Hm : String.eqb ?m "" = _
                       |- context [String.eqb ?m ""] => rewrite Hm
                     end;
              reflexivity ]).
  all: try (split; [reflexivity|];
            match goal with
            | Hn : _ /\ last _ _ = _ |- _ => destruct Hn as [Hlen <-]
            end;
            first [ apply gave_up_with_intro
                  | apply (gave_up_with_intro []) ]; exact Hlen).
  all: read_trace.
  all: split; [reflexivity|]; eexists; split; reflexivity.
Qed.

(** The transfer waits for nothing and makes no call to the ledger; the
    destination address of its result is that of the Sepolia signer. *)
Lemma transfer_summary (amt : string) (s : St)
      (r : thrown + TransferResult) (s' : St) :
  trace s = [] ->
  sleeps s = [] ->
  executeCrossChainTransfer amt s = (r, s') ->
  sleeps s' = [] /\
  Forall (fun ev => is_view (call_of ev) = false) (trace s') /\
  forall result,
    r = inr result ->
    exists destination,
      first (read_signer Sepolia) (trace s') = Some destination /\
      destinationAddress result = ss_address destination.
Proof.
  intros Hfresh Hrested H. unfold executeCrossChainTransfer, tokenTransfer in H.
  repeat count H; settle H.
  all: split; [reflexivity|]; split; [repeat constructor|].
  all: intros result Hr; try discriminate Hr; inversion Hr; subst.
  all: eexists; split; reflexivity.
Qed.

(** Staking only adds to the trace and to the waits, and what it adds are
    calls of [staking_call]. *)
Lemma staking_summary (userAddress : string) (s : St)
      (r : thrown + option StakePosition) (s' : St) :
  executeStaking userAddress s = (r, s') ->
  exists tr sl,
    trace s' = (trace s ++ tr)%list /\
    sleeps s' = (sleeps s ++ sl)%list /\
    Forall (fun ev => staking_call userAddress (balance_read tr) (call_of ev)) tr.
Proof.
  intros H. unfold executeStaking in H.
  repeat count H; settle H; rewrite <- ?app_assoc.
  all: do 2 eexists; (split; [|split]);
    [ first [ reflexivity | symmetry; apply app_nil_r ]
    | first [ reflexivity | symmetry; apply app_nil_r ]
    | unfold balance_read; read_trace; every_call ].
Qed.

Lemma In_calls (c : call) (tr : list event) :
  In c (calls tr) -> exists ev, In ev tr /\ call_of ev = c.
Proof.
  unfold calls. intros H. apply in_map_iff in H.
  destruct H as (ev & Hc & Hin). now exists ev.
Qed.

(** The pipeline shared by [main] and [POST /api/cross-chain-stake]: a
    transfer from a fresh state, then a wait of 30 s, then staking for the
    destination address of the transfer. *)
Lemma pipeline_summary (s1 s2 s' : St) (result : TransferResult)
      (r : thrown + option StakePosition) :
  sleeps s1 = [] ->
  Forall (fun ev => is_view (call_of ev) = false) (trace s1) ->
  (exists destination,
      first (read_signer Sepolia) (trace s1) = Some destination /\
      destinationAddress result = ss_address destination) ->
  trace s2 = trace s1 ->
  sleeps s2 = (sleeps s1 ++ [(30000 # 1)%Q])%list ->
  executeStaking (destinationAddress result) s2 = (r, s') ->
  stakes_at_destination (trace s') (sleeps s').
Proof.
  intros Hsl Hnone (destination & Hd & Haddr) Ht2 Hs2 H.
  apply staking_summary in H. destruct H as (tr & sl & Ht & Hs & Hcalls).
  intros token who Hin. rewrite Ht, Ht2 in *. rewrite Hs, Hs2, Hsl.
  unfold calls in Hin. rewrite map_app in Hin. apply in_app_or in Hin.
  destruct Hin as [Hin|Hin].
  - apply In_calls in Hin. destruct Hin as (ev & Hev & Hc).
    rewrite Forall_forall in Hnone. apply Hnone in Hev.
    rewrite Hc in Hev. discriminate.
  - apply In_calls in Hin. destruct Hin as (ev & Hev & Hc).
    rewrite Forall_forall in Hcalls. apply Hcalls in Hev.
    rewrite Hc in Hev. simpl in Hev. destruct Hev as [-> ->].
    split; [reflexivity|]. split; [|reflexivity].
    exists destination. rewrite first_app, Hd. now split.
Qed.

Lemma no_view_no_balance (tr : list event) (token who : string) :
  Forall (fun ev => is_view (call_of ev) = false) tr ->
  ~ In (CBalanceOf token who) (calls tr).
Proof.
  intros Hnone Hin. apply In_calls in Hin. destruct Hin as (ev & Hev & Hc).
  rewrite Forall_forall in Hnone. apply Hnone in Hev.
  rewrite Hc in Hev. discriminate.
Qed.

(** [POST /api/cross-chain-stake] stakes at the destination of its transfer,
    after the wait. *)
Theorem handler_stakes_at_destination
        (amount : option string) (w : W) :
  let s' := snd (cross_chain_stake amount (init w)) in
  stakes_at_destination (trace s') (sleeps s').
Proof.
  intros s'. subst s'.
  unfold cross_chain_stake, try_catch, bind.
  destruct amount as [amt|]; [|intros token who []].
  destruct (falsy (Some amt) || le_zero (parseFloat amt));
    [intros token who []|].
  destruct (executeCrossChainTransfer amt (init w)) as [[e|result] s1] eqn:Ht;
    (apply transfer_summary in Ht; [|reflexivity|reflexivity]);
    destruct Ht as (Hsl & Hnone & Hres).
  - unfold console_error, message_of, ret, throw. simpl.
    destruct e; simpl; intros token who Hin;
      now apply no_view_no_balance in Hin.
  - unfold console_log, sleep. simpl.
    match goal with
    | |- context [executeStaking ?u ?st] =>
        destruct (executeStaking u st) as [[e|position] s2] eqn:Hs;
        (eapply pipeline_summary in Hs;
         [ | exact Hsl | exact Hnone | exact (Hres _ eq_refl)
           | reflexivity | reflexivity ])
    end.
    + unfold console_error, message_of, ret, throw. simpl.
      destruct e; simpl; exact Hs.
    + exact Hs.
Qed.

(** The script exits with code 0 whatever happened, and when it stakes it
    stakes at the destination of its transfer, after the wait. *)
Theorem main_always_exits_zero (w : W) :
  let run := main (init w) in
  fst run = inr 0 /\
  stakes_at_destination (trace (snd run)) (sleeps (snd run)).
Proof.
  intros run. subst run.
  unfold main, try_catch, bind, console_log. simpl.
  match goal with
  | |- context [executeCrossChainTransfer ?a ?st] =>
      destruct (executeCrossChainTransfer a st) as [[e|result] s1] eqn:Ht;
      (apply transfer_summary in Ht; [|reflexivity|reflexivity]);
      destruct Ht as (Hsl & Hnone & Hres)
  end.
  - unfold console_error, ret. simpl. split; [reflexivity|].
    intros token who Hin. now apply no_view_no_balance in Hin.
  - unfold sleep. simpl.
    match goal with
    | |- context [executeStaking ?u ?st] =>
        destruct (executeStaking u st) as [[e|position] s2] eqn:Hs;
        (eapply pipeline_summary in Hs;
         [ | exact Hsl | exact Hnone | exact (Hres _ eq_refl)
           | reflexivity | reflexivity ])
    end.
    + unfold console_error, ret. simpl. split; [reflexivity | exact Hs].
    + unfold ret. simpl. split; [reflexivity | exact Hs].
Qed.

End LedgerOperations.
